(** * cjworkbench: the Refine edit replay and the quota panel's grouping

    A shallow embedding of two pieces of the front end:

    - the Refine component: [applySingleEdit], [loadHistogram],
      [handleGridRowsUpdated] and [handleValueChange];
    - [groupAutofetches] of QuotaExceeded.js.

    JavaScript objects are finite maps from property names to values
    ([gmap string val]), arrays are lists, and the operators [==] and [+]
    are the functions [loose_eq] and [js_add].  The definitions come first:
    the values ([JS]), the component ([Refine]), the JSON text of an edit log
    ([EditJSON]), [applySingleEdit] on a store of arrays and objects
    ([RefineHeap]), the doubles of the quota panel ([Double], the binary64
    arithmetic of the standard library's [SpecFloat]) and the grouping
    ([QuotaExceeded]).  Their properties follow, module by module. *)

From Stdlib Require Import Ascii OrderedTypeEx SpecFloat.
From stdpp Require Import gmap strings pretty list fin_maps numbers sorting.

(** ** JavaScript values *)

Module JS.

(** Numbers.  The embedding covers the integers (a double holds them exactly
    up to 2^53, far beyond any occurrence count or timestamp) and [NaN], which
    the code produces when it adds [undefined] to a count. *)
Inductive number := NaN | Int (z : Z).

(** The primitive values that [JSON.parse] yields, and [undefined]. *)
Inductive val :=
  | VUndef
  | VNull
  | VBool (b : bool)
  | VNum (n : number)
  | VStr (s : string).

#[global] Instance number_eq_dec : EqDecision number.
Proof. solve_decision. Defined.
#[global] Instance val_eq_dec : EqDecision val.
Proof. solve_decision. Defined.

(** The two conversions between strings and numbers belong to the language
    runtime, not to this repository; they are taken as an interface. *)
Class Runtime := {
  StringToNumber : string → number;
  NumberToString : number → string
}.

(** A runtime for closed examples.  It agrees with the language on the
    strings of decimal digits with an optional minus sign, and on the integers
    below 10^21 in magnitude; every other string is taken to [NaN]. *)
Definition digit_value (c : Ascii.ascii) : option Z :=
  let n := Z.of_nat (Ascii.nat_of_ascii c) in
  if bool_decide (48 ≤ n ≤ 57)%Z then Some (n - 48)%Z else None.

Fixpoint decimal_digits (acc : Z) (s : string) : option Z :=
  match s with
  | EmptyString => Some acc
  | String c s' =>
      match digit_value c with
      | Some d => decimal_digits (10 * acc + d)%Z s'
      | None => None
      end
  end.

Definition decimal_to_number (s : string) : number :=
  match s with
  | EmptyString => Int 0
  | String "-"%char (String _ _ as s') =>
      match decimal_digits 0 s' with Some z => Int (- z) | None => NaN end
  | _ => match decimal_digits 0 s with Some z => Int z | None => NaN end
  end.

Definition number_to_decimal (n : number) : string :=
  match n with
  | NaN => "NaN"
  | Int z => pretty z
  end.

Definition decimal_runtime : Runtime :=
  {| StringToNumber := decimal_to_number; NumberToString := number_to_decimal |}.

Section operators.
Context {runtime : Runtime}.

Definition ToNumber (v : val) : number :=
  match v with
  | VUndef => NaN
  | VNull => Int 0
  | VBool b => Int (if b then 1 else 0)
  | VNum n => n
  | VStr s => StringToNumber s
  end.

Definition ToString (v : val) : string :=
  match v with
  | VUndef => "undefined"
  | VNull => "null"
  | VBool b => if b then "true" else "false"
  | VNum n => NumberToString n
  | VStr s => s
  end.

(** [x === y] on numbers: [NaN] equals nothing, itself included. *)
Definition number_eq (a b : number) : bool :=
  match a, b with
  | Int x, Int y => bool_decide (x = y)
  | _, _ => false
  end.

Definition number_add (a b : number) : number :=
  match a, b with
  | Int x, Int y => Int (x + y)
  | _, _ => NaN
  end.

(** [x == y] (IsLooselyEqual): same types compare strictly, [null] and
    [undefined] equal each other and nothing else, a string meeting a number
    is converted to a number, and a boolean is converted to a number before
    anything else. *)
Definition loose_eq (x y : val) : bool :=
  match x, y with
  | VUndef, VUndef | VUndef, VNull | VNull, VUndef | VNull, VNull => true
  | VNum a, VNum b => number_eq a b
  | VStr a, VStr b => bool_decide (a = b)
  | VBool a, VBool b => bool_decide (a = b)
  | VNum a, VStr s => number_eq a (StringToNumber s)
  | VStr s, VNum b => number_eq (StringToNumber s) b
  | VBool a, VNum b => number_eq (ToNumber (VBool a)) b
  | VBool a, VStr s => number_eq (ToNumber (VBool a)) (StringToNumber s)
  | VNum a, VBool b => number_eq a (ToNumber (VBool b))
  | VStr s, VBool b => number_eq (StringToNumber s) (ToNumber (VBool b))
  | _, _ => false
  end.

(** [x + y]: concatenation as soon as one side is a string, addition of
    the operands converted to numbers otherwise. *)
Definition js_add (x y : val) : val :=
  match x, y with
  | VStr _, _ | _, VStr _ => VStr (ToString x +:+ ToString y)
  | _, _ => VNum (number_add (ToNumber x) (ToNumber y))
  end.
End operators.

(** [o[k]] on a plain object: [undefined] when [o] has no property [k].
    Only own properties are modelled: [k] is not the name of a member of
    [Object.prototype]. *)
Definition get (o : gmap string val) (k : string) : val :=
  default VUndef (o !! k).

End JS.
Export JS.

(** ** The Refine component *)

Module Refine.

(** An edit record of the log, [{column, fromVal, toVal, timestamp}]. *)
Record Edit := mkEdit {
  column : string;
  fromVal : val;
  toVal : val;
  timestamp : Z
}.

#[global] Instance Edit_eq_dec : EqDecision Edit.
Proof. solve_decision. Defined.

(** The histogram row [{[col]: v, count: n}]. *)
Definition mkRow (col : string) (v : val) (n : Z) : gmap string val :=
  <["count" := VNum (Int n)]> {[col := v]}.

(** What [api.histogram] resolves to. *)
Record Histogram := mkHistogram {
  rows : list (gmap string val);
  columns : list string
}.

(** A column descriptor of the data grid, [{key, name, editable}]. *)
Record GridColumn := mkGridColumn {
  key : string;
  name : string;
  editable : bool
}.

(** [this.state] of the component. *)
Record State := mkState {
  histogramLoaded : bool;
  histogramData : list (gmap string val);
  histogramNumRows : nat;
  histogramColumns : list GridColumn;
  edits : list Edit
}.

(** The argument of [onGridRowsUpdated]. *)
Record GridUpdate := mkGridUpdate {
  cellKey : string;
  fromRowData : gmap string val;
  updated : gmap string val
}.

(** The argument of [onValueChange], [{fromVal, toVal}]. *)
Record ValueChange := mkValueChange {
  change_fromVal : val;
  change_toVal : val
}.

(** [this.props] of the component. *)
Record Props := mkProps {
  wfModuleId : Z;
  selectedColumn : string;
  existingEdits : string;
  revision : Z
}.

(** The props of an edit row, with the key of the element: React keeps the
    string of a [key] attribute that is not [undefined], and no key ([null])
    otherwise. *)
Record EditRowProps := mkEditRowProps {
  dataValue : val;
  dataCount : val;
  row_key : option string
}.

(** [JSON.stringify] turns [NaN] into [null]; every other value of [val]
    reads back as it was written (a property whose value is [undefined] is
    left out, and reads back as [undefined]). *)
Definition json_val (v : val) : Prop := v ≠ VNum NaN.

Definition json_edit (e : Edit) : Prop :=
  json_val (fromVal e) ∧ json_val (toVal e).

(** [JSON.stringify] and [JSON.parse] on edit logs.  They belong to the
    runtime; what the component relies on is that parsing gives back what was
    serialized. *)
Class JSON := {
  JSON_stringify : list Edit → string;
  JSON_parse : string → option (list Edit)
}.

Definition JSON_roundtrip {json : JSON} : Prop :=
  ∀ log, Forall json_edit log → JSON_parse (JSON_stringify log) = Some log.

Section replay.
Context {runtime : Runtime}.

(** The two search loops of [applySingleEdit]:
    [for (i = 0; i < newHist.length; i++)
       if (newHist[i][col] == v) { idx = i; break }],
    with [None] for the initial [-1]. *)
Fixpoint findIndex (col : string) (v : val) (newHist : list (gmap string val))
    : option nat :=
  match newHist with
  | [] => None
  | r :: rest =>
      if loose_eq (get r col) v then Some 0%nat
      else S <$> findIndex col v rest
  end.

(** [Object.assign({}, newHist[idx])]: a copy of the row, and the empty
    object when the index is [-1] ([newHist[-1]] is [undefined]). *)
Definition entryAt (idx : option nat) (newHist : list (gmap string val))
    : gmap string val :=
  match idx with
  | Some i => default ∅ (newHist !! i)
  | None => ∅
  end.

(** [newHist.splice(idx, 1)].  A start of [-1] counts from the end of the
    array: it removes the last element (and nothing from an empty array). *)
Definition splice1 {A} (idx : option nat) (newHist : list A) : list A :=
  match idx with
  | Some i => delete i newHist
  | None => delete (length newHist - 1)%nat newHist
  end.

Definition applySingleEdit (hist : list (gmap string val)) (edit : Edit)
    : list (gmap string val) :=
  let newHist := hist in
  let fromIdx := findIndex (column edit) (fromVal edit) newHist in
  let fromEntry := entryAt fromIdx newHist in
  let newHist := splice1 fromIdx newHist in
  let toIdx := findIndex (column edit) (toVal edit) newHist in
  match toIdx with
  | None =>
      let newEntry : gmap string val := ∅ in
      let newEntry := <[column edit := toVal edit]> newEntry in
      let newEntry := <["count" := get fromEntry "count"]> newEntry in
      newEntry :: newHist
  | Some j =>
      let toEntry := entryAt (Some j) newHist in
      let newHist := splice1 (Some j) newHist in
      let toEntry :=
        <["count" := js_add (get toEntry "count") (get fromEntry "count")]>
          toEntry in
      toEntry :: newHist
  end.

(** The loop of [loadHistogram] over [this.state.edits], index 0 first. *)
Fixpoint replayEdits (selectedColumn : string) (edits : list Edit)
    (editedHistogram : list (gmap string val)) : list (gmap string val) :=
  match edits with
  | [] => editedHistogram
  | e :: rest =>
      replayEdits selectedColumn rest
        (if bool_decide (column e = selectedColumn)
         then applySingleEdit editedHistogram e
         else editedHistogram)
  end.

(** The callback of [loadHistogram]: the state set once the histogram has
    been fetched. *)
Definition loadHistogram (selectedColumn : string) (state : State)
    (histogram : Histogram) : State :=
  let editedHistogram :=
    replayEdits selectedColumn (edits state) (rows histogram) in
  {| histogramLoaded := true;
     histogramData := editedHistogram;
     histogramNumRows := length editedHistogram;
     histogramColumns :=
       (λ cname, mkGridColumn cname cname (negb (bool_decide (cname = "count"))))
         <$> columns histogram;
     edits := edits state |}.

(** The two handlers.  [now] is the value of [Date.now()]; the result is the
    argument of the one call of [this.props.saveEdits], and [None] when the
    handler returns without calling it. *)
Definition handleGridRowsUpdated {json : JSON} (state : State) (now : Z)
    (data : GridUpdate) : option string :=
  let changeCol := cellKey data in
  if bool_decide (changeCol = "count") then None
  else
    let fromVal := get (fromRowData data) changeCol in
    let toVal := get (updated data) changeCol in
    if loose_eq fromVal toVal then None
    else
      let nextEdits := edits state in
      let nextEdits := nextEdits ++ [mkEdit changeCol fromVal toVal now] in
      Some (JSON_stringify nextEdits).

Definition handleValueChange {json : JSON} (selectedColumn : string) (state : State)
    (now : Z) (changeData : ValueChange) : option string :=
  let nextEdits := edits state in
  let nextEdits :=
    nextEdits ++
      [mkEdit selectedColumn (change_fromVal changeData)
         (change_toVal changeData) now] in
  Some (JSON_stringify nextEdits).

(** [rowGetter(i)] and [editsRowGetter(i)], the rows of the two grids.  An
    index below 0 reads [undefined]. *)
Definition rowGetter (state : State) (i : nat) : option (gmap string val) :=
  histogramData state !! i.

Definition editsRowGetter (state : State) (i : nat) : option Edit :=
  let idx := (Z.of_nat (length (edits state)) - Z.of_nat i - 1)%Z in
  if bool_decide (0 ≤ idx)%Z then edits state !! Z.to_nat idx else None.

(** The constructor: [None] when [JSON.parse] throws. *)
Definition constructor {json : JSON} (props : Props) : option State :=
  log ← JSON_parse
           (if bool_decide (0 < String.length (existingEdits props))%nat
            then existingEdits props else "[]");
  Some {| histogramLoaded := false;
          histogramData := [];
          histogramNumRows := 0;
          histogramColumns := [];
          edits := log |}.

(** [componentWillReceiveProps(nextProps)]: the next state and the column of
    the histogram it asks for, if any. *)
Definition componentWillReceiveProps {json : JSON} (props : Props)
    (state : State) (nextProps : Props) : option (State * option string) :=
  let nextColumn := selectedColumn nextProps in
  let nextRevision := revision nextProps in
  if bool_decide (nextRevision ≠ revision props) then
    log ← JSON_parse
             (if bool_decide (0 < String.length (existingEdits nextProps))%nat
              then existingEdits nextProps else "[]");
    Some ({| histogramLoaded := false;
             histogramData := [];
             histogramNumRows := 0;
             histogramColumns := [];
             edits := log |}, Some nextColumn)
  else Some (state, None).

(** [renderHistogramNew()]: the props of the edit rows it creates, one for
    each row of the histogram, and [None] while nothing is loaded. *)
Definition renderHistogramNew (props : Props) (state : State)
    : option (list EditRowProps) :=
  if histogramLoaded state then
    Some ((λ item,
             {| dataValue := get item (selectedColumn props);
                dataCount := get item "count";
                row_key :=
                  match get item (selectedColumn props) with
                  | VUndef => None
                  | v => Some (ToString v)
                  end |})
            <$> histogramData state)
  else None.

(** *** The vocabulary of the statements *)

(** The text of a log is never empty. *)
Definition JSON_nonempty {json : JSON} : Prop :=
  ∀ log, JSON_stringify log ≠ EmptyString.

(** Every edit that [replayEdits] applies finds a row with its [fromVal] in
    the histogram it is applied to. *)
Fixpoint edits_found (selectedColumn : string) (log : list Edit)
    (hist : list (gmap string val)) : Prop :=
  match log with
  | [] => True
  | e :: rest =>
      if bool_decide (column e = selectedColumn) then
        Exists (λ r, loose_eq (get r (column e)) (fromVal e) = true) hist ∧
        edits_found selectedColumn rest (applySingleEdit hist e)
      else edits_found selectedColumn rest hist
  end.

(** "The value of row [r] at [col] equals [v]", with the equality of the
    code, [r[col] == v]. *)
Definition has_value (col : string) (v : val) (r : gmap string val) : Prop :=
  loose_eq (get r col) v = true.

(** Row [i] of [hist] is [r], the first row whose value at [col] equals [v]. *)
Definition first_match (col : string) (v : val) (hist : list (gmap string val))
    (i : nat) (r : gmap string val) : Prop :=
  hist !! i = Some r ∧ has_value col v r ∧
  ∀ k r', (k < i)%nat → hist !! k = Some r' → ¬ has_value col v r'.

(** [x === y] *)
Definition strict_eq (x y : val) : bool :=
  match x, y with
  | VUndef, VUndef | VNull, VNull => true
  | VBool a, VBool b => bool_decide (a = b)
  | VNum a, VNum b => number_eq a b
  | VStr a, VStr b => bool_decide (a = b)
  | _, _ => false
  end.

(** No two rows of [hist] have the same value at [col], for the equality
    [eq] ([loose_eq] or [strict_eq]). *)
Definition distinct_values (eq : val → val → bool) (col : string)
    (hist : list (gmap string val)) : Prop :=
  ∀ i j r1 r2, i ≠ j → hist !! i = Some r1 → hist !! j = Some r2 →
    eq (get r1 col) (get r2 col) = false.

(** Every row has a count, and it is an integer. *)
Definition numeric_counts (hist : list (gmap string val)) : Prop :=
  Forall (λ r, ∃ n, r !! "count" = Some (VNum (Int n))) hist.

(** The count of a row as an integer, and their total over a histogram. *)
Definition count_of (r : gmap string val) : Z :=
  match r !! "count" with
  | Some (VNum (Int n)) => n
  | _ => 0
  end.

Definition total_count (hist : list (gmap string val)) : Z :=
  foldr (λ r s, count_of r + s)%Z 0%Z hist.

(** [hist.reduce((sum, row) => sum + row.count, 0)] *)
Definition count_sum (hist : list (gmap string val)) : val :=
  foldl (λ sum row, js_add sum (get row "count")) (VNum (Int 0)) hist.
End replay.

End Refine.

(** ** The edit row *)

Module EditRow.
Import Refine.

(** [this.state] of an edit row. *)
Record State := mkState {
  initValue : val;
  state_dataValue : val;
  state_dataCount : val
}.

Definition constructor (props : EditRowProps) : State :=
  {| initValue := dataValue props;
     state_dataValue := dataValue props;
     state_dataCount := dataCount props |}.

(** [handleValueChange(event)], with [value] for [event.target.value], the
    text of the input. *)
Definition handleValueChange (state : State) (value : string) : State :=
  {| initValue := initValue state;
     state_dataValue := VStr value;
     state_dataCount := state_dataCount state |}.

(** [handleKeyPress(event)], with [key] for [event.key]: the argument of the
    call of [this.props.onValueChange], if it is called. *)
Definition handleKeyPress (state : State) (key : string) : option ValueChange :=
  if bool_decide (key = "Enter")
  then Some {| change_fromVal := initValue state;
               change_toVal := state_dataValue state |}
  else None.

End EditRow.

(** ** The JSON text of an edit log

    An instance of [JSON]: the text [JSON.stringify] writes for an array of
    edit records, [[{"column":...,"fromVal":...,"toVal":...,"timestamp":...}]],
    and a reader of that text.  Every writer takes the text [k] that follows. *)

Module EditJSON.
Import Refine.

Definition dquote : ascii := ascii_of_nat 34.
Definition backslash : ascii := ascii_of_nat 92.

Definition hex_digit (n : N) : ascii :=
  match n with
  | 0 => "0" | 1 => "1" | 2 => "2" | 3 => "3" | 4 => "4" | 5 => "5"
  | 6 => "6" | 7 => "7" | 8 => "8" | 9 => "9" | 10 => "a" | 11 => "b"
  | 12 => "c" | 13 => "d" | 14 => "e" | _ => "f"
  end%char%N.

Definition hex_value (c : ascii) : option N :=
  let n := N_of_ascii c in
  if bool_decide (48 ≤ n ≤ 57)%N then Some (n - 48)%N
  else if bool_decide (97 ≤ n ≤ 102)%N then Some (n - 87)%N
  else if bool_decide (65 ≤ n ≤ 70)%N then Some (n - 55)%N
  else None.

(** A character inside a string literal: the quote, the backslash and the
    control characters are escaped. *)
Definition write_char (c : ascii) (k : string) : string :=
  let n := N_of_ascii c in
  if bool_decide (c = dquote) then String backslash (String dquote k)
  else if bool_decide (c = backslash) then String backslash (String backslash k)
  else if bool_decide (n = 8)%N then String backslash (String "b" k)
  else if bool_decide (n = 9)%N then String backslash (String "t" k)
  else if bool_decide (n = 10)%N then String backslash (String "n" k)
  else if bool_decide (n = 12)%N then String backslash (String "f" k)
  else if bool_decide (n = 13)%N then String backslash (String "r" k)
  else if bool_decide (n < 32)%N then
    String backslash (String "u" (String "0" (String "0"
      (String (hex_digit (n / 16)) (String (hex_digit (n mod 16)) k)))))
  else String c k.

Fixpoint write_chars (s k : string) : string :=
  match s with
  | EmptyString => k
  | String c s' => write_char c (write_chars s' k)
  end.

Definition write_string (s k : string) : string :=
  String dquote (write_chars s (String dquote k)).

Definition write_Z (z : Z) (k : string) : string :=
  match z with
  | Z0 => String "0" k
  | Zpos p => pretty_N_go (Npos p) k
  | Zneg p => String "-" (pretty_N_go (Npos p) k)
  end.

(** The text of a value; [None] for [undefined], whose property is left
    out.  [NaN] is written as [null]. *)
Definition write_val (v : val) (k : string) : option string :=
  match v with
  | VUndef => None
  | VNull | VNum NaN => Some ("null" +:+ k)
  | VBool b => Some ((if b then "true" else "false") +:+ k)
  | VNum (Int z) => Some (write_Z z k)
  | VStr s => Some (write_string s k)
  end.

(** A property name with its colon. *)
Definition write_key (name k : string) : string :=
  String dquote (name +:+ String dquote (String ":" k)).

Definition write_field (name : string) (v : val) (k : string) : string :=
  match write_val v k with
  | Some text => String "," (write_key name text)
  | None => k
  end.

Definition write_edit (e : Edit) (k : string) : string :=
  String "{" (write_key "column" (write_string (column e)
    (write_field "fromVal" (fromVal e)
      (write_field "toVal" (toVal e)
        (String "," (write_key "timestamp"
          (write_Z (timestamp e) (String "}" k)))))))).

Fixpoint write_more (log : list Edit) (k : string) : string :=
  match log with
  | [] => String "]" k
  | e :: log' => String "," (write_edit e (write_more log' k))
  end.

Definition write_edits (log : list Edit) : string :=
  match log with
  | [] => String "[" (String "]" EmptyString)
  | e :: log' => String "[" (write_edit e (write_more log' EmptyString))
  end.

(** The reader.  Every function returns what it read and the rest of the
    text. *)
Fixpoint strip (p s : string) : option string :=
  match p with
  | EmptyString => Some s
  | String c p' =>
      match s with
      | String c' s' => if bool_decide (c = c') then strip p' s' else None
      | EmptyString => None
      end
  end.

Definition unescape (c : ascii) : option ascii :=
  if bool_decide (c = dquote) then Some dquote
  else if bool_decide (c = backslash) then Some backslash
  else if bool_decide (c = "/"%char) then Some "/"%char
  else if bool_decide (c = "b"%char) then Some (ascii_of_nat 8)
  else if bool_decide (c = "t"%char) then Some (ascii_of_nat 9)
  else if bool_decide (c = "n"%char) then Some (ascii_of_nat 10)
  else if bool_decide (c = "f"%char) then Some (ascii_of_nat 12)
  else if bool_decide (c = "r"%char) then Some (ascii_of_nat 13)
  else None.

Definition cons_char (c : ascii) (r : string * string) : string * string :=
  (String c r.1, r.2).

(** The characters of a string literal, up to the closing quote. *)
Fixpoint read_chars (s : string) : option (string * string) :=
  match s with
  | EmptyString => None
  | String c s' =>
      if bool_decide (c = dquote) then Some (EmptyString, s')
      else if bool_decide (c = backslash) then
        match s' with
        | EmptyString => None
        | String e s'' =>
            if bool_decide (e = "u"%char) then
              match s'' with
              | String a (String b (String x (String y s3))) =>
                  match hex_value a, hex_value b, hex_value x, hex_value y with
                  | Some 0%N, Some 0%N, Some hi, Some lo =>
                      cons_char (ascii_of_N (16 * hi + lo)) <$> read_chars s3
                  | _, _, _, _ => None
                  end
              | _ => None
              end
            else
              match unescape e with
              | Some c' => cons_char c' <$> read_chars s''
              | None => None
              end
        end
      else cons_char c <$> read_chars s'
  end.

Fixpoint read_digits (acc : Z) (s : string) : Z * string :=
  match s with
  | EmptyString => (acc, s)
  | String c s' =>
      match digit_value c with
      | Some d => read_digits (10 * acc + d) s'
      | None => (acc, s)
      end
  end.

Definition starts_with_digit (s : string) : bool :=
  match s with
  | EmptyString => false
  | String c _ => bool_decide (is_Some (digit_value c))
  end.

Definition read_Z (s : string) : option (Z * string) :=
  match s with
  | EmptyString => None
  | String c s' =>
      if bool_decide (c = "-"%char) then
        if starts_with_digit s'
        then Some (prod_map Z.opp id (read_digits 0 s'))
        else None
      else if starts_with_digit s then Some (read_digits 0 s) else None
  end.

Definition read_val (s : string) : option (val * string) :=
  match s with
  | EmptyString => None
  | String c s' =>
      if bool_decide (c = "n"%char) then pair VNull <$> strip "ull" s'
      else if bool_decide (c = "t"%char) then pair (VBool true) <$> strip "rue" s'
      else if bool_decide (c = "f"%char) then pair (VBool false) <$> strip "alse" s'
      else if bool_decide (c = dquote) then prod_map VStr id <$> read_chars s'
      else prod_map (λ z, VNum (Int z)) id <$> read_Z s
  end.

(** A property that may have been left out. *)
Definition read_field (name s : string) : option (val * string) :=
  match strip (String "," (write_key name EmptyString)) s with
  | Some s' => read_val s'
  | None => Some (VUndef, s)
  end.

Definition read_edit (s : string) : option (Edit * string) :=
  s ← strip (String "{" (write_key "column" (String dquote EmptyString))) s;
  col ← read_chars s;
  from ← read_field "fromVal" col.2;
  to ← read_field "toVal" from.2;
  s ← strip (String "," (write_key "timestamp" EmptyString)) to.2;
  ts ← read_Z s;
  s ← strip "}" ts.2;
  Some (mkEdit col.1 from.1 to.1 ts.1, s).

Fixpoint read_more (fuel : nat) (s : string) : option (list Edit * string) :=
  match fuel, s with
  | S fuel', String c s' =>
      if bool_decide (c = "]"%char) then Some ([], s')
      else if bool_decide (c = ","%char) then
        e ← read_edit s';
        log ← read_more fuel' e.2;
        Some (e.1 :: log.1, log.2)
      else None
  | _, _ => None
  end.

Definition read_edits (s : string) : option (list Edit) :=
  match s with
  | String c s' =>
      if bool_decide (c = "["%char) then
        match strip "]" s' with
        | Some rest => if bool_decide (rest = EmptyString) then Some [] else None
        | None =>
            e ← read_edit s';
            log ← read_more (String.length e.2) e.2;
            if bool_decide (log.2 = EmptyString) then Some (e.1 :: log.1)
            else None
        end
      else None
  | EmptyString => None
  end.

Definition text_json : JSON :=
  {| JSON_stringify := write_edits; JSON_parse := read_edits |}.

End EditJSON.

(** ** [applySingleEdit] on the heap

    The same method with arrays and row objects as references into a store,
    so that what it writes, and where, can be stated. *)

Module RefineHeap.
Import Refine.

(** References are positive numbers; row objects and arrays live in two
    separate stores. *)
Record heap := mkHeap {
  objects : gmap positive (gmap string val);
  arrays : gmap positive (list positive)
}.

(** Computations that read and write the heap, and fail on a dangling
    reference. *)
Definition M (A : Type) : Type := heap → option (A * heap).

#[global] Instance M_ret : MRet M := λ A a h, Some (a, h).

#[global] Instance M_bind : MBind M :=
  λ A B k m h, match m h with
               | Some (a, h') => k a h'
               | None => None
               end.

(** [{...}] and [[...]]: allocation at a fresh reference. *)
Definition new_object (o : gmap string val) : M positive :=
  λ h, let l := fresh (dom (objects h)) in
       Some (l, mkHeap (<[l := o]> (objects h)) (arrays h)).

Definition new_array (a : list positive) : M positive :=
  λ h, let l := fresh (dom (arrays h)) in
       Some (l, mkHeap (objects h) (<[l := a]> (arrays h))).

Definition read_object (r : positive) : M (gmap string val) :=
  λ h, (λ o, (o, h)) <$> objects h !! r.

Definition read_array (a : positive) : M (list positive) :=
  λ h, (λ xs, (xs, h)) <$> arrays h !! a.

Definition write_object (r : positive) (o : gmap string val) : M unit :=
  λ h, match objects h !! r with
       | Some _ => Some (tt, mkHeap (<[r := o]> (objects h)) (arrays h))
       | None => None
       end.

Definition write_array (a : positive) (xs : list positive) : M unit :=
  λ h, match arrays h !! a with
       | Some _ => Some (tt, mkHeap (objects h) (<[a := xs]> (arrays h)))
       | None => None
       end.

(** [a.slice()] *)
Definition slice (a : positive) : M positive :=
  xs ← read_array a; new_array xs.

(** [a[idx]], [None] for [undefined] *)
Definition index (a : positive) (idx : option nat) : M (option positive) :=
  xs ← read_array a;
  mret (match idx with Some i => xs !! i | None => None end).

(** [r[k]] *)
Definition member (r : positive) (k : string) : M val :=
  o ← read_object r; mret (get o k).

(** [r[k] = v] *)
Definition set_member (r : positive) (k : string) (v : val) : M unit :=
  o ← read_object r; write_object r (<[k := v]> o).

(** [Object.assign({}, src)] *)
Definition Object_assign_new (src : option positive) : M positive :=
  match src with
  | Some r => o ← read_object r; new_object o
  | None => new_object ∅
  end.

(** [a.splice(idx, 1)] and [a.unshift(r)] *)
Definition splice (a : positive) (idx : option nat) : M unit :=
  xs ← read_array a; write_array a (splice1 idx xs).

Definition unshift (a : positive) (r : positive) : M unit :=
  xs ← read_array a; write_array a (r :: xs).

Section heap_program.
Context {runtime : Runtime}.

(** The search loop; nothing is written while it runs, so the array is read
    once. *)
Fixpoint findLoop (col : string) (v : val) (rs : list positive) (i : nat)
    : M (option nat) :=
  match rs with
  | [] => mret None
  | r :: rest =>
      x ← member r col;
      if loose_eq x v then mret (Some i) else findLoop col v rest (S i)
  end.

Definition findIndex (a : positive) (col : string) (v : val) : M (option nat) :=
  rs ← read_array a; findLoop col v rs 0%nat.

Definition applySingleEdit (hist : positive) (edit : Edit) : M positive :=
  newHist ← slice hist;
  fromIdx ← findIndex newHist (column edit) (fromVal edit);
  src ← index newHist fromIdx;
  fromEntry ← Object_assign_new src;
  splice newHist fromIdx ;;
  toIdx ← findIndex newHist (column edit) (toVal edit);
  match toIdx with
  | None =>
      newEntry ← new_object ∅;
      set_member newEntry (column edit) (toVal edit) ;;
      c ← member fromEntry "count";
      set_member newEntry "count" c ;;
      unshift newHist newEntry ;;
      mret newHist
  | Some j =>
      src ← index newHist (Some j);
      toEntry ← Object_assign_new src;
      splice newHist (Some j) ;;
      x ← member toEntry "count";
      y ← member fromEntry "count";
      set_member toEntry "count" (js_add x y) ;;
      unshift newHist toEntry ;;
      mret newHist
  end.

(** The loop of [loadHistogram] on the heap: [editedHistogram] is assigned
    the result of each call.  The edits are read only. *)
Fixpoint replayEdits (selectedColumn : string) (edits : list Edit)
    (editedHistogram : positive) : M positive :=
  match edits with
  | [] => mret editedHistogram
  | e :: rest =>
      if bool_decide (column e = selectedColumn) then
        editedHistogram ← applySingleEdit editedHistogram e;
        replayEdits selectedColumn rest editedHistogram
      else replayEdits selectedColumn rest editedHistogram
  end.

(** [histogram.rows.slice()] and the loop: the array that becomes
    [histogramData]. *)
Definition loadHistogram (selectedColumn : string) (edits : list Edit)
    (rows : positive) : M positive :=
  editedHistogram ← slice rows;
  replayEdits selectedColumn edits editedHistogram.
End heap_program.

(** The rows an array reference stands for. *)
Definition rows_of (h : heap) (a : positive) : option (list (gmap string val)) :=
  xs ← arrays h !! a; mapM (λ r, objects h !! r) xs.

(** [xs] are references to the row objects [rs]. *)
Abbreviation rows_at h xs rs :=
  (Forall2 (λ r o, objects h !! r = Some o) xs rs).

End RefineHeap.

(** ** Numbers of the quota panel: IEEE 754 doubles *)

Module Double.

(** Binary64, with the operations of the standard library's specification
    of floating-point arithmetic (rounding to nearest, ties to even). *)
Definition prec : Z := 53.
Definition emax : Z := 1024.

Abbreviation double := spec_float.

(** The literal [0] *)
Definition zero : double := S754_zero false.

(** The double of an integer literal or of an integer read from JSON: the
    nearest one. *)
Definition of_Z (z : Z) : double := binary_normalize prec emax z 0 false.

(** [x + y], [x - y], [x / y], [x < y] and [x == y] on numbers *)
Definition add : double → double → double := SFadd prec emax.
Definition sub : double → double → double := SFsub prec emax.
Definition div : double → double → double := SFdiv prec emax.
Definition ltb : double → double → bool := SFltb.
Definition eqb : double → double → bool := SFeqb.

(** [ToBoolean] of a number: [0], [-0] and [NaN] are falsy. *)
Definition truthy (x : double) : bool :=
  match x with
  | S754_zero _ | S754_nan => false
  | _ => true
  end.

(** *** The vocabulary of the statements *)

(** [x] is a double (its mantissa and exponent are those of binary64) and
    it is [0], positive or [Infinity]. *)
Definition nonneg (x : double) : Prop :=
  valid_binary prec emax x = true ∧
  match x with
  | S754_zero false | S754_infinity false | S754_finite false _ _ => True
  | _ => False
  end.

(** The value of a non-negative double in units of [2^-1074]; [Infinity]
    counts as [2^1024], which is [2^2098] in these units. *)
Definition units (x : double) : Z :=
  match x with
  | S754_finite false m e => Z.pos m * 2 ^ (e + 1074)
  | S754_infinity false => 2 ^ 2098
  | _ => 0
  end.

(** The mantissa [m] at the exponent [e] is in the form binary64 gives a
    number (for [m = 0], [e] is the least exponent). *)
Definition canonical (m e : Z) : Prop := fexp prec emax (Zdigits2 m + e) = e.

(** The sign of a number that is not [NaN]. *)
Definition signed (s : bool) (x : double) : Prop :=
  match x with
  | S754_zero s' | S754_infinity s' | S754_finite s' _ _ => s' = s
  | S754_nan => False
  end.

End Double.

(** ** The quota panel: [groupAutofetches] *)

Module QuotaExceeded.

(** Workflow and step ids are integers. *)
Record Workflow := mkWorkflow {
  id : Z;
  name : string
}.

Record Tab := mkTab {
  tab_name : string
}.

(** [fetchInterval] is a positive whole number of seconds. *)
Record WfModule := mkWfModule {
  wfModule_id : Z;
  order : Z;
  fetchInterval : positive
}.

Record Autofetch := mkAutofetch {
  workflow : Workflow;
  tab : Tab;
  wfModule : WfModule
}.

(** A value of the [groups] object, [{workflow, nFetchesPerDay, autofetches}]
    (its [workflow] is [group_workflow] here, the name being taken by the
    field of an autofetch). *)
Record Group := mkGroup {
  group_workflow : Workflow;
  nFetchesPerDay : Double.double;
  autofetches : list Autofetch
}.

(** [String.prototype.localeCompare]: the collation of the user's locale,
    which the language requires to be a consistent comparator (a total
    preorder on strings). *)
Class Collation := {
  localeCompare : string → string → Z;
  localeCompare_antisym a b :
    Z.sgn (localeCompare b a) = (- Z.sgn (localeCompare a b))%Z;
  localeCompare_trans a b c :
    (localeCompare a b ≤ 0)%Z → (localeCompare b c ≤ 0)%Z →
    (localeCompare a c ≤ 0)%Z
}.

(** A collation for closed examples: the lexicographic order of the
    character codes. *)
Definition codeCompare (a b : string) : Z :=
  match String.compare a b with
  | Lt => (-1)%Z
  | Eq => 0%Z
  | Gt => 1%Z
  end.

Program Definition code_collation : Collation :=
  {| localeCompare := codeCompare |}.
Next Obligation.
  intros a b. unfold codeCompare. rewrite (String.compare_antisym a b).
  by destruct (String.compare b a).
Qed.
Next Obligation.
  intros a b c. unfold codeCompare.
  destruct (String.compare a c) eqn:Hac; [lia | lia |].
  intros Hab Hbc. exfalso.
  assert (String_as_OT.lt c a) as Hca.
  { apply String_as_OT.cmp_lt. unfold String_as_OT.cmp.
    rewrite String.compare_antisym, Hac. done. }
  assert (a = b ∨ String_as_OT.lt a b) as Hab'.
  { destruct (String.compare a b) eqn:E; [| | lia].
    - left. by apply String_as_OT.cmp_eq.
    - right. by apply String_as_OT.cmp_lt. }
  assert (b = c ∨ String_as_OT.lt b c) as Hbc'.
  { destruct (String.compare b c) eqn:E; [| | lia].
    - left. by apply String_as_OT.cmp_eq.
    - right. by apply String_as_OT.cmp_lt. }
  assert (String_as_OT.lt a a) as Haa.
  { destruct Hab' as [-> | Hab'], Hbc' as [-> | Hbc'].
    - done.
    - by eapply String_as_OT.lt_trans.
    - by eapply String_as_OT.lt_trans.
    - eapply String_as_OT.lt_trans; [done |]. by eapply String_as_OT.lt_trans. }
  by eapply String_as_OT.lt_not_eq.
Qed.

(** [86400 / autofetch.wfModule.fetchInterval] *)
Definition fetchesPerDay (autofetch : Autofetch) : Double.double :=
  Double.div (Double.of_Z 86400)
    (Double.of_Z (Z.pos (fetchInterval (wfModule autofetch)))).

(** [String(autofetch.workflow.id)] *)
Definition groupId (autofetch : Autofetch) : string :=
  pretty (id (workflow autofetch)).

(** The [groups] object is kept as the list of its properties in the order
    they were created.  [adjust k f] is [groups[k] = f(groups[k])]. *)
Definition adjust {A} (k : string) (f : A → A) (groups : list (string * A))
    : list (string * A) :=
  (λ kv, if bool_decide (kv.1 = k) then (kv.1, f kv.2) else kv) <$> groups.

(** The body of the loop of [groupAutofetches]. *)
Definition addAutofetch (groups : list (string * Group)) (autofetch : Autofetch)
    : list (string * Group) :=
  let groupId := groupId autofetch in
  let groups :=
    if bool_decide (groupId ∈ groups.*1) then groups
    else groups ++ [(groupId, mkGroup (workflow autofetch) Double.zero [])] in
  adjust groupId
    (λ group,
       mkGroup (group_workflow group)
         (Double.add (nFetchesPerDay group) (fetchesPerDay autofetch))
         (autofetches group ++ [autofetch]))
    groups.

(** A stable sort: [insert_sorted] puts [x] before the first element it is
    not greater than.  [Array.prototype.sort] is stable, and for a consistent
    comparator all stable sorts return the same array. *)
Fixpoint insert_sorted {A} (gt : A → A → bool) (x : A) (l : list A) : list A :=
  match l with
  | [] => [x]
  | y :: l' => if gt x y then y :: insert_sorted gt x l' else x :: l
  end.

Definition stable_sort {A} (gt : A → A → bool) (l : list A) : list A :=
  foldr (insert_sorted gt) [] l.

(** [x] may stay before [y]: the comparator does not put it after. *)
Definition not_after {A} (gt : A → A → bool) (x y : A) : Prop :=
  gt x y = false.

(** [l.sort(comparefn)]: [a] goes after [b] when [comparefn(a, b) > 0]. *)
Definition Array_sort {A} (comparefn : A → A → Double.double) (l : list A)
    : list A :=
  stable_sort (λ a b, Double.ltb Double.zero (comparefn a b)) l.

(** A property name is an array index when it is the decimal form of an
    integer from 0 to 2^32 - 2. *)
Definition array_index (k : string) : option Z :=
  match decimal_digits 0 k with
  | Some n =>
      if bool_decide (k = pretty n ∧ (n < 2 ^ 32 - 1)%Z) then Some n else None
  | None => None
  end.

(** [Object.values(groups)]: the properties whose names are array indices
    come first, in ascending order, the others follow in creation order. *)
Definition Object_values {A} (groups : list (string * A)) : list A :=
  let indexed := filter (λ kv, is_Some (array_index kv.1)) groups in
  let others := filter (λ kv, ¬ is_Some (array_index kv.1)) groups in
  (stable_sort
     (λ a b, bool_decide (default 0 (array_index b.1) < default 0 (array_index a.1))%Z)
     indexed ++ others).*2.

Section grouping.
Context {collation : Collation}.

(** [(a, b) => b.nFetchesPerDay - a.nFetchesPerDay ||
               a.workflow.name.localeCompare(b.workflow.name)] *)
Definition compareGroups (a b : Group) : Double.double :=
  let d := Double.sub (nFetchesPerDay b) (nFetchesPerDay a) in
  if Double.truthy d then d
  else Double.of_Z
         (localeCompare (name (group_workflow a)) (name (group_workflow b))).

Definition groupAutofetches (autofetches : list Autofetch) : list Group :=
  let groups := foldl addAutofetch [] autofetches in
  Array_sort compareGroups (Object_values groups).

(** *** The vocabulary of the statements *)

(** The sum of [86400 / fetchInterval] over [l]: the doubles are added one
    by one to 0, in list order. *)
Definition sum_fetches (l : list Autofetch) : Double.double :=
  foldl
    (λ sum autofetch,
       Double.add sum
         (Double.div (Double.of_Z 86400)
            (Double.of_Z (Z.pos (fetchInterval (wfModule autofetch))))))
    Double.zero l.

(** [g1] may come before [g2]: it has more fetches per day ([<] on doubles),
    or as many ([==]) and a workflow name that is not after the other in the
    collation. *)
Definition before (g1 g2 : Group) : Prop :=
  Double.ltb (nFetchesPerDay g2) (nFetchesPerDay g1) = true ∨
  (Double.eqb (nFetchesPerDay g1) (nFetchesPerDay g2) = true ∧
   (localeCompare (name (group_workflow g1)) (name (group_workflow g2)) ≤ 0)%Z).
End grouping.

End QuotaExceeded.

(** * Properties of the Refine component *)

Module RefineSpec.
Import Refine.

Section pure.
Context {runtime : Runtime}.
Implicit Types (hist pre post : list (gmap string val)) (r t : gmap string val).
Implicit Types (e : Edit) (col : string) (v : val).

Lemma number_eq_sym a b : number_eq a b = number_eq b a.
Proof. destruct a, b; simpl; try done. apply bool_decide_ext. naive_solver. Qed.

Lemma loose_eq_sym x y : loose_eq x y = loose_eq y x.
Proof.
  destruct x, y; try done; unfold loose_eq; try apply number_eq_sym;
    apply bool_decide_ext; naive_solver.
Qed.

Lemma strict_eq_loose_eq x y : strict_eq x y = true → loose_eq x y = true.
Proof. by destruct x, y. Qed.

Lemma findIndex_None col v hist :
  findIndex col v hist = None ↔ Forall (λ r, ¬ has_value col v r) hist.
Proof.
  unfold has_value. induction hist as [|r hist IH]; simpl.
  - split; [constructor | done].
  - destruct (loose_eq (get r col) v) eqn:Hr.
    + split; [done |]. inversion 1; subst. congruence.
    + rewrite fmap_None, IH. split.
      * intros Hh. constructor; [congruence | done].
      * by inversion 1.
Qed.

Lemma findIndex_Some col v hist i :
  findIndex col v hist = Some i ↔ ∃ r, first_match col v hist i r.
Proof.
  unfold first_match, has_value. revert i.
  induction hist as [|r hist IH]; intros i; simpl.
  - split; [done | by intros (r & ? & _)].
  - destruct (loose_eq (get r col) v) eqn:Hr.
    + split.
      * intros [= <-]. exists r. split_and!; [done.. | lia].
      * intros (r' & Hi & Hv & Hfirst). destruct i as [|i]; [done |].
        destruct (Hfirst 0%nat r); [lia | done | done].
    + rewrite fmap_Some. split.
      * intros (i' & Hi' & ->). apply IH in Hi' as (r' & ? & ? & Hfirst).
        exists r'. split_and!; [done.. |].
        intros [|k] r'' Hk; simpl.
        -- intros [= <-]. congruence.
        -- apply Hfirst. lia.
      * intros (r' & Hi & Hv & Hfirst). destruct i as [|i]; simpl in Hi.
        { simplify_eq. congruence. }
        exists i. split; [| done]. apply IH. exists r'. split_and!; [done.. |].
        intros k r'' Hk Hk'. apply (Hfirst (S k) r''); [lia | done].
Qed.

(** A row with the value exists exactly when there is a first one. *)
Lemma first_match_exists col v hist j t :
  hist !! j = Some t → has_value col v t →
  ∃ i r, first_match col v hist i r ∧ (i ≤ j)%nat.
Proof.
  intros Hj Hv. destruct (findIndex col v hist) as [i|] eqn:Hi.
  - apply findIndex_Some in Hi as [r Hr]. exists i, r. split; [done |].
    destruct (decide (i ≤ j)%nat); [done |].
    destruct Hr as (_ & _ & Hfirst). destruct (Hfirst j t); [lia | done..].
  - apply findIndex_None in Hi. rewrite Forall_lookup in Hi.
    destruct (Hi j t Hj Hv).
Qed.

Lemma first_match_app col v pre r post :
  Forall (λ x, ¬ has_value col v x) pre → has_value col v r →
  first_match col v (pre ++ r :: post) (length pre) r.
Proof.
  intros Hpre Hr. split_and!; [by rewrite list_lookup_middle | done |].
  intros k r' Hk. rewrite lookup_app_l by done. intros Hk'.
  rewrite Forall_lookup in Hpre. by eapply Hpre.
Qed.

(** What [applySingleEdit] returns once the from-row has been found. *)
Lemma applySingleEdit_found hist e i r :
  first_match (column e) (fromVal e) hist i r →
  applySingleEdit hist e =
    match findIndex (column e) (toVal e) (delete i hist) with
    | None =>
        <["count" := get r "count"]> {[column e := toVal e]} :: delete i hist
    | Some j =>
        let t := default ∅ (delete i hist !! j) in
        <["count" := js_add (get t "count") (get r "count")]> t
          :: delete j (delete i hist)
    end.
Proof.
  intros Hfirst. unfold applySingleEdit.
  rewrite (proj2 (findIndex_Some _ _ _ _) (ex_intro _ r Hfirst)).
  destruct Hfirst as (Hi & _). simpl. rewrite Hi. simpl.
  by destruct (findIndex _ _ (delete i hist)).
Qed.

(** What it returns when no row has the value [fromVal]: the index stays
    [-1], so the from-entry is the empty object and the splice removes the
    last row. *)
Lemma applySingleEdit_not_found hist e :
  Forall (λ r, ¬ has_value (column e) (fromVal e) r) hist →
  let rest := delete (length hist - 1)%nat hist in
  applySingleEdit hist e =
    match findIndex (column e) (toVal e) rest with
    | None => <["count" := VUndef]> {[column e := toVal e]} :: rest
    | Some j =>
        let t := default ∅ (rest !! j) in
        <["count" := js_add (get t "count") VUndef]> t :: delete j rest
    end.
Proof.
  intros Hnone. unfold applySingleEdit.
  rewrite (proj2 (findIndex_None _ _ _) Hnone). simpl.
  by destruct (findIndex _ _ (delete _ hist)).
Qed.

(** C4.  [applySingleEdit] takes the first match in both of its steps.  Let
    [r] be the first row of [hist] whose value at [edit.column] equals
    [fromVal]: [hist] is [pre ++ r :: post] and no row of [pre] has that
    value.  Whatever rows of [post] also have the value [fromVal], only [r]
    is removed by the first step, and the second step looks for [toVal] in
    [pre ++ post].  When no row there has the value [toVal], a new row is
    put in front of [pre ++ post]; otherwise the row taken out and merged is
    the first one that has it, the row [t] with no such row in [pre'] before
    it. *)
Theorem applySingleEdit_first_match hist e pre r post :
  hist = pre ++ r :: post →
  Forall (λ x, ¬ has_value (column e) (fromVal e) x) pre →
  has_value (column e) (fromVal e) r →
  (Forall (λ x, ¬ has_value (column e) (toVal e) x) (pre ++ post) →
   applySingleEdit hist e =
     <["count" := get r "count"]> {[column e := toVal e]} :: pre ++ post) ∧
  (∀ pre' t post',
     pre ++ post = pre' ++ t :: post' →
     Forall (λ x, ¬ has_value (column e) (toVal e) x) pre' →
     has_value (column e) (toVal e) t →
     applySingleEdit hist e =
       <["count" := js_add (get t "count") (get r "count")]> t
         :: pre' ++ post').
Proof.
  intros -> Hpre Hr.
  pose proof (first_match_app _ _ _ _ post Hpre Hr) as Hfirst.
  rewrite (applySingleEdit_found _ _ _ _ Hfirst), delete_middle.
  split.
  - intros Hnone. by rewrite (proj2 (findIndex_None _ _ _) Hnone).
  - intros pre' t post' Heq Hpre' Ht. rewrite Heq.
    pose proof (first_match_app _ _ _ _ post' Hpre' Ht) as Hto.
    rewrite (proj2 (findIndex_Some _ _ _ _) (ex_intro _ t Hto)).
    simpl. by rewrite list_lookup_middle, delete_middle.
Qed.

Lemma get_insert_eq r k v : get (<[k := v]> r) k = v.
Proof. unfold get. by rewrite lookup_insert_eq. Qed.

Lemma get_insert_ne r k k' v : k ≠ k' → get (<[k := v]> r) k' = get r k'.
Proof. intros. unfold get. by rewrite lookup_insert_ne. Qed.

Lemma get_singleton_eq k v : get {[k := v]} k = v.
Proof. unfold get. by rewrite lookup_singleton_eq. Qed.

(** A row of [hist] other than row [i] is a row of [delete i hist]. *)
Lemma lookup_delete_other hist i j t :
  j ≠ i → hist !! j = Some t → ∃ j', delete i hist !! j' = Some t.
Proof.
  intros Hne Hj. destruct (decide (j < i)%nat).
  - exists j. by rewrite list_lookup_delete_lt.
  - exists (j - 1)%nat. rewrite list_lookup_delete_ge by lia.
    by replace (S (j - 1)) with j by lia.
Qed.

Lemma lookup_delete_inv hist i j' t :
  delete i hist !! j' = Some t → ∃ j, j ≠ i ∧ hist !! j = Some t.
Proof.
  rewrite list_lookup_delete. case_decide; intros Hj; eexists; (split; [| done]); lia.
Qed.

(** C1, amended.  Let the column of the edit not be the one named count,
    let row [i] be the first row of [hist] whose value at [edit.column] equals
    [fromVal], and let some other row [j] have a value equal to [toVal].
    Then [applySingleEdit] removes row [i] and the first of the remaining
    rows whose value equals [toVal], the row [t'], and puts one merged row in
    front of what is left: a copy of [t'], so that its value at [edit.column]
    is that of [t'] and equals [toVal], whose count is the count of [t']
    plus the count of the from-row.  The result has one row fewer than
    [hist]. *)
Theorem applySingleEdit_merge hist e i r j t :
  column e ≠ "count" →
  first_match (column e) (fromVal e) hist i r →
  j ≠ i → hist !! j = Some t → has_value (column e) (toVal e) t →
  ∃ k t' merged,
    first_match (column e) (toVal e) (delete i hist) k t' ∧
    applySingleEdit hist e = merged :: delete k (delete i hist) ∧
    get merged (column e) = get t' (column e) ∧
    has_value (column e) (toVal e) merged ∧
    get merged "count" = js_add (get t' "count") (get r "count") ∧
    (length (applySingleEdit hist e) + 1 = length hist)%nat.
Proof.
  intros Hcol Hfrom Hne Hj Ht.
  destruct (lookup_delete_other _ _ _ _ Hne Hj) as [j' Hj'].
  destruct (first_match_exists _ _ _ _ _ Hj' Ht) as (k & t' & Hto & _).
  rewrite (applySingleEdit_found _ _ _ _ Hfrom).
  rewrite (proj2 (findIndex_Some _ _ _ _) (ex_intro _ t' Hto)).
  pose proof Hto as (Hk & Ht' & _). pose proof Hfrom as (Hi & _).
  simpl. rewrite Hk. simpl.
  eexists k, t', _. split_and!; [done | done | | | |].
  - by rewrite get_insert_ne.
  - unfold has_value. by rewrite get_insert_ne.
  - by rewrite get_insert_eq.
  - simpl. rewrite !length_delete by eauto.
    apply lookup_lt_Some in Hk. rewrite length_delete in Hk by eauto. lia.
Qed.

(** C2, amended.  Let the column of the edit not be the one named count,
    let row [i] be the first row of [hist] whose value at [edit.column] equals
    [fromVal], and let no other row have a value equal to [toVal].  Then
    [applySingleEdit] removes row [i] and puts in front of the other rows,
    which keep their order, the new row [{[edit.column]: toVal, count}] with
    the count of the removed row.  The result has as many rows as [hist]. *)
Theorem applySingleEdit_new_row hist e i r :
  column e ≠ "count" →
  first_match (column e) (fromVal e) hist i r →
  (∀ j t, j ≠ i → hist !! j = Some t → ¬ has_value (column e) (toVal e) t) →
  ∃ newEntry,
    applySingleEdit hist e = newEntry :: delete i hist ∧
    newEntry = <["count" := get r "count"]> {[column e := toVal e]} ∧
    get newEntry (column e) = toVal e ∧
    get newEntry "count" = get r "count" ∧
    length (applySingleEdit hist e) = length hist.
Proof.
  intros Hcol Hfrom Hnone.
  rewrite (applySingleEdit_found _ _ _ _ Hfrom).
  assert (findIndex (column e) (toVal e) (delete i hist) = None) as ->.
  { apply findIndex_None, Forall_lookup. intros j' t Hj'.
    apply lookup_delete_inv in Hj' as (j & ? & ?). eauto. }
  destruct Hfrom as (Hi & _).
  eexists. split_and!; [done | done | | |].
  - by rewrite get_insert_ne, get_singleton_eq.
  - by rewrite get_insert_eq.
  - simpl. rewrite length_delete by eauto. apply lookup_lt_Some in Hi. lia.
Qed.

(** *** Distinct values *)

Lemma distinct_values_delete eq col hist i :
  distinct_values eq col hist → distinct_values eq col (delete i hist).
Proof.
  intros Hd a b r1 r2 Hab. rewrite !list_lookup_delete.
  intros Ha Hb. eapply Hd; [| done..]. repeat case_decide; lia.
Qed.

Lemma distinct_values_cons eq col hist r :
  (∀ j t, hist !! j = Some t →
     eq (get r col) (get t col) = false ∧ eq (get t col) (get r col) = false) →
  distinct_values eq col hist → distinct_values eq col (r :: hist).
Proof.
  intros Hr Hd [|a] [|b] r1 r2 Hab Ha Hb; simplify_eq/=.
  - by eapply Hr.
  - by eapply Hr.
  - eapply Hd; [| done..]. lia.
Qed.

Lemma applySingleEdit_distinct_values eq hist e i r :
  (∀ x y, eq x y = eq y x) →
  (∀ x y, eq x y = true → loose_eq x y = true) →
  column e ≠ "count" →
  first_match (column e) (fromVal e) hist i r →
  distinct_values eq (column e) hist →
  distinct_values eq (column e) (applySingleEdit hist e).
Proof.
  intros Hsym Hloose Hcol Hfrom Hd.
  rewrite (applySingleEdit_found _ _ _ _ Hfrom).
  destruct (findIndex _ _ (delete i hist)) as [k|] eqn:Hk.
  - apply findIndex_Some in Hk as (t & Hk & _). rewrite Hk. simpl.
    apply distinct_values_cons; [| by do 2 apply distinct_values_delete].
    intros j x. rewrite get_insert_ne by done. rewrite list_lookup_delete.
    intros Hj. split.
    + eapply (distinct_values_delete _ _ _ i Hd); [| done..]. case_decide; lia.
    + eapply (distinct_values_delete _ _ _ i Hd); [| done..]. case_decide; lia.
  - apply distinct_values_cons; [| by apply distinct_values_delete].
    rewrite findIndex_None, Forall_lookup in Hk.
    intros j t Hj. rewrite get_insert_ne, get_singleton_eq by done.
    assert (eq (get t (column e)) (toVal e) = false) as Ht.
    { destruct (eq _ _) eqn:Heq; [| done]. destruct (Hk j t Hj).
      by apply Hloose. }
    by rewrite Hsym.
Qed.

Lemma strict_eq_sym x y : strict_eq x y = strict_eq y x.
Proof.
  destruct x, y; try done; unfold strict_eq; try apply number_eq_sym;
    apply bool_decide_ext; naive_solver.
Qed.

(** C7, amended.  Let the column of the edit not be the one named count
    and let some row of [hist] have a value equal to [fromVal].  If the
    values of the rows of [hist] at [edit.column] are pairwise distinct, so are
    those of the rows of the result; this holds for values compared with
    [==] and for values compared with [===]. *)
Theorem applySingleEdit_preserves_distinct hist e j t :
  column e ≠ "count" →
  hist !! j = Some t → has_value (column e) (fromVal e) t →
  (distinct_values loose_eq (column e) hist →
   distinct_values loose_eq (column e) (applySingleEdit hist e)) ∧
  (distinct_values strict_eq (column e) hist →
   distinct_values strict_eq (column e) (applySingleEdit hist e)).
Proof.
  intros Hcol Hj Ht.
  destruct (first_match_exists _ _ _ _ _ Hj Ht) as (i & r & Hfrom & _).
  split.
  - by apply (applySingleEdit_distinct_values _ _ _ i r loose_eq_sym).
  - apply (applySingleEdit_distinct_values _ _ _ i r strict_eq_sym);
      auto using strict_eq_loose_eq.
Qed.

(** *** Counts *)

Lemma numeric_count_of r :
  (∃ n, r !! "count" = Some (VNum (Int n))) →
  get r "count" = VNum (Int (count_of r)).
Proof. intros [n Hn]. unfold get, count_of. by rewrite Hn. Qed.

Lemma count_sum_total_from hist a :
  numeric_counts hist →
  foldl (λ sum row, js_add sum (get row "count")) (VNum (Int a)) hist
  = VNum (Int (a + total_count hist)).
Proof.
  intros Hnum. revert a. induction Hnum as [|r hist Hr _ IH]; intros a; simpl.
  - by rewrite Z.add_0_r.
  - rewrite (numeric_count_of r Hr). simpl. rewrite IH. do 2 f_equal. lia.
Qed.

Lemma count_sum_total hist :
  numeric_counts hist → count_sum hist = VNum (Int (total_count hist)).
Proof. intros Hnum. unfold count_sum. by rewrite count_sum_total_from. Qed.

Lemma total_count_delete hist i r :
  hist !! i = Some r →
  total_count hist = (count_of r + total_count (delete i hist))%Z.
Proof.
  revert i. induction hist as [|x hist IH]; intros [|i] Hi; simplify_eq/=.
  - done.
  - rewrite (IH i Hi). lia.
Qed.

Lemma numeric_counts_lookup hist i r :
  numeric_counts hist → hist !! i = Some r →
  ∃ n, r !! "count" = Some (VNum (Int n)).
Proof. unfold numeric_counts. rewrite Forall_lookup. eauto. Qed.

Lemma numeric_counts_delete hist i :
  numeric_counts hist → numeric_counts (delete i hist).
Proof.
  unfold numeric_counts. rewrite !Forall_lookup. intros Hnum j r.
  rewrite list_lookup_delete. apply Hnum.
Qed.

(** C8.  [applySingleEdit] conserves the total count.  For a histogram
    whose counts are integers and which has a row whose value at
    [edit.column] equals [fromVal], the sum of the counts of the result is the
    sum of the counts of [hist], whether the from-row was merged into a to-row
    or replaced by a new row, and the counts of the result are integers
    again. *)
Theorem applySingleEdit_count_sum hist e j t :
  numeric_counts hist →
  hist !! j = Some t → has_value (column e) (fromVal e) t →
  count_sum (applySingleEdit hist e) = count_sum hist ∧
  numeric_counts (applySingleEdit hist e).
Proof.
  intros Hnum Hj Ht.
  destruct (first_match_exists _ _ _ _ _ Hj Ht) as (i & r & Hfrom & _).
  pose proof Hfrom as (Hi & _).
  assert (∃ n, r !! "count" = Some (VNum (Int n))) as Hr.
  { by eapply numeric_counts_lookup. }
  assert (numeric_counts (applySingleEdit hist e) ∧
          total_count (applySingleEdit hist e) = total_count hist) as [Hnum' Htot].
  { rewrite (applySingleEdit_found _ _ _ _ Hfrom).
    rewrite (total_count_delete hist i r Hi), (numeric_count_of r Hr).
    destruct (findIndex _ _ (delete i hist)) as [k|] eqn:Hk.
    - apply findIndex_Some in Hk as (t' & Hk & _). rewrite Hk. simpl.
      assert (∃ n, t' !! "count" = Some (VNum (Int n))) as Ht'.
      { eapply numeric_counts_lookup; [by apply numeric_counts_delete | done]. }
      rewrite (numeric_count_of t' Ht'). simpl. split.
      + constructor; [| by do 2 apply numeric_counts_delete].
        eexists. by rewrite lookup_insert_eq.
      + rewrite (total_count_delete (delete i hist) k t' Hk).
        unfold count_of at 1. rewrite lookup_insert_eq. lia.
    - simpl. split.
      + constructor; [| by apply numeric_counts_delete].
        eexists. by rewrite lookup_insert_eq.
      + unfold count_of at 1. by rewrite lookup_insert_eq. }
  split; [| done]. by rewrite !count_sum_total, Htot.
Qed.

(** *** Replaying the log *)

(** C5, amended.  The histogram that [loadHistogram] stores is the left fold
    of [applySingleEdit], starting from the fetched rows, over those edits of
    the log whose column is the selected column, in log order; the edits of
    other columns are skipped.  The stored number of rows is the length of
    that histogram, and the log is left as it was. *)
Theorem loadHistogram_replays selectedColumn state histogram :
  let state' := loadHistogram selectedColumn state histogram in
  histogramData state' =
    foldl applySingleEdit (rows histogram)
      (filter (λ e, column e = selectedColumn) (edits state)) ∧
  histogramNumRows state' = length (histogramData state') ∧
  histogramLoaded state' = true ∧
  edits state' = edits state.
Proof.
  simpl. split_and!; try done.
  generalize (rows histogram) as hist.
  induction (edits state) as [|e log IH]; intros hist; simpl; [done |].
  rewrite IH, filter_cons. case_bool_decide; by case_decide.
Qed.

End pure.

(** *** Closed instances, on the runtime of decimal integers *)

#[local] Existing Instance decimal_runtime.

(** C3.  No row has the value [fromVal]: the edit is not skipped.  The only
    row of the histogram is removed and a row without a count is added. *)
Lemma applySingleEdit_absent_fromVal :
  let hist := [mkRow "city" (VStr "NY") 3] in
  let e := mkEdit "city" (VStr "LA") (VStr "Los Angeles") 0 in
  findIndex (column e) (fromVal e) hist = None ∧
  applySingleEdit hist e = [<["count" := VUndef]> {["city" := VStr "Los Angeles"]}] ∧
  applySingleEdit hist e ≠ hist.
Proof. split_and!; [done | done |]. vm_compute. by intros [=]. Qed.

(** C1 as stated fails when the column of the edit is the one named count:
    the rows [{count: 1}] and [{count: 2}] have the values [fromVal] and
    [toVal], and the merged row is [{count: 3}], whose value at the column is
    the sum and not [toVal]. *)
Lemma applySingleEdit_merge_count_column :
  let hist : list (gmap string val) :=
    [{["count" := VNum (Int 1)]}; {["count" := VNum (Int 2)]}] in
  let e := mkEdit "count" (VNum (Int 1)) (VNum (Int 2)) 0 in
  (∃ r, hist !! 0%nat = Some r ∧ has_value (column e) (fromVal e) r) ∧
  (∃ t, hist !! 1%nat = Some t ∧ has_value (column e) (toVal e) t) ∧
  applySingleEdit hist e = [{["count" := VNum (Int 3)]}] ∧
  ¬ has_value (column e) (toVal e) {["count" := VNum (Int 3)]}.
Proof.
  split_and!.
  - eexists. split; reflexivity.
  - eexists. split; reflexivity.
  - reflexivity.
  - vm_compute. discriminate.
Qed.

(** The row with [toVal] has to be another row than the first row with
    [fromVal].  With [==] the number 1 equals both strings, which are not
    equal to each other: the first row is taken as the from-row, the row that
    is left does not have the value [toVal], and a new row is added. *)
Lemma applySingleEdit_merge_same_row :
  let hist := [mkRow "n" (VNum (Int 1)) 5; mkRow "n" (VStr "1") 7] in
  let e := mkEdit "n" (VStr "1") (VStr "01") 0 in
  (∃ r, hist !! 1%nat = Some r ∧ has_value (column e) (fromVal e) r) ∧
  (∃ t, hist !! 0%nat = Some t ∧ has_value (column e) (toVal e) t) ∧
  applySingleEdit hist e = [mkRow "n" (VStr "01") 5; mkRow "n" (VStr "1") 7].
Proof.
  split_and!.
  - eexists. split; reflexivity.
  - eexists. split; reflexivity.
  - reflexivity.
Qed.

(** C1, amended, on a histogram of three cities. *)
Lemma applySingleEdit_merge_witness :
  let hist := [mkRow "city" (VStr "NY") 3; mkRow "city" (VStr "Boston") 1;
               mkRow "city" (VStr "New York") 5] in
  let e := mkEdit "city" (VStr "NY") (VStr "New York") 0 in
  let r := mkRow "city" (VStr "NY") 3 in
  let t := mkRow "city" (VStr "New York") 5 in
  (column e ≠ "count" ∧ first_match (column e) (fromVal e) hist 0 r ∧
   hist !! 2%nat = Some t ∧ has_value (column e) (toVal e) t) ∧
  ∃ k t' merged,
    first_match (column e) (toVal e) (delete 0%nat hist) k t' ∧
    applySingleEdit hist e = merged :: delete k (delete 0%nat hist) ∧
    get merged (column e) = get t' (column e) ∧
    has_value (column e) (toVal e) merged ∧
    get merged "count" = js_add (get t' "count") (get r "count") ∧
    (length (applySingleEdit hist e) + 1 = length hist)%nat.
Proof.
  intros hist e r t.
  assert (column e ≠ "count") as Hcol by (vm_compute; discriminate).
  assert (first_match (column e) (fromVal e) hist 0 r) as Hfrom.
  { split_and!; [reflexivity | vm_compute; reflexivity | intros; lia]. }
  assert (has_value (column e) (toVal e) t) as Ht by (vm_compute; reflexivity).
  split; [done |].
  apply (applySingleEdit_merge hist e 0%nat r 2%nat t Hcol Hfrom);
    [lia | reflexivity | exact Ht].
Defined.

(** C2 as stated fails when the column of the edit is the one named count:
    the new row gets [toVal] and then the count of the removed row under the
    same name, so its value at the column is the old count, not [toVal]. *)
Lemma applySingleEdit_new_row_count_column :
  let hist : list (gmap string val) := [{["count" := VNum (Int 1)]}] in
  let e := mkEdit "count" (VNum (Int 1)) (VNum (Int 2)) 0 in
  (∃ r, hist !! 0%nat = Some r ∧ has_value (column e) (fromVal e) r) ∧
  Forall (λ t, ¬ has_value (column e) (toVal e) t) hist ∧
  applySingleEdit hist e = [{["count" := VNum (Int 1)]}] ∧
  get {["count" := VNum (Int 1)]} (column e) ≠ toVal e ∧
  ¬ has_value (column e) (toVal e) {["count" := VNum (Int 1)]}.
Proof.
  split_and!.
  - eexists. split; reflexivity.
  - repeat constructor. vm_compute. discriminate.
  - reflexivity.
  - vm_compute. discriminate.
  - vm_compute. discriminate.
Qed.

(** C2, amended, on a histogram of two cities. *)
Lemma applySingleEdit_new_row_witness :
  let hist := [mkRow "city" (VStr "NY") 3; mkRow "city" (VStr "Boston") 1] in
  let e := mkEdit "city" (VStr "NY") (VStr "New York") 0 in
  let r := mkRow "city" (VStr "NY") 3 in
  (column e ≠ "count" ∧ first_match (column e) (fromVal e) hist 0 r ∧
   ∀ j t, j ≠ 0%nat → hist !! j = Some t → ¬ has_value (column e) (toVal e) t) ∧
  ∃ newEntry,
    applySingleEdit hist e = newEntry :: delete 0%nat hist ∧
    newEntry = <["count" := get r "count"]> {[column e := toVal e]} ∧
    get newEntry (column e) = toVal e ∧
    get newEntry "count" = get r "count" ∧
    length (applySingleEdit hist e) = length hist.
Proof.
  intros hist e r.
  assert (column e ≠ "count") as Hcol by (vm_compute; discriminate).
  assert (first_match (column e) (fromVal e) hist 0 r) as Hfrom.
  { split_and!; [reflexivity | vm_compute; reflexivity | intros; lia]. }
  assert (∀ j t, j ≠ 0%nat → hist !! j = Some t →
            ¬ has_value (column e) (toVal e) t) as Hnone.
  { intros [|[|j]] t Hj; [lia | |]; simpl; intros [= <-].
    vm_compute. discriminate. }
  split; [done |].
  apply (applySingleEdit_new_row hist e 0%nat r Hcol Hfrom Hnone).
Defined.

(** C4 on a histogram with two rows of value [fromVal]. *)
Lemma applySingleEdit_first_match_witness :
  let pre := [mkRow "city" (VStr "Boston") 1] in
  let r := mkRow "city" (VStr "NY") 3 in
  let post := [mkRow "city" (VStr "NY") 2; mkRow "city" (VStr "New York") 5] in
  let hist := pre ++ r :: post in
  let e := mkEdit "city" (VStr "NY") (VStr "New York") 0 in
  (Forall (λ x, ¬ has_value (column e) (fromVal e) x) pre ∧
   has_value (column e) (fromVal e) r) ∧
  (Forall (λ x, ¬ has_value (column e) (toVal e) x) (pre ++ post) →
   applySingleEdit hist e =
     <["count" := get r "count"]> {[column e := toVal e]} :: pre ++ post) ∧
  (∀ pre' t post',
     pre ++ post = pre' ++ t :: post' →
     Forall (λ x, ¬ has_value (column e) (toVal e) x) pre' →
     has_value (column e) (toVal e) t →
     applySingleEdit hist e =
       <["count" := js_add (get t "count") (get r "count")]> t
         :: pre' ++ post').
Proof.
  intros pre r post hist e.
  assert (Forall (λ x, ¬ has_value (column e) (fromVal e) x) pre) as Hpre.
  { repeat constructor. vm_compute. discriminate. }
  assert (has_value (column e) (fromVal e) r) as Hr by (vm_compute; reflexivity).
  split; [done |].
  apply (applySingleEdit_first_match hist e pre r post eq_refl Hpre Hr).
Defined.

(** C7 as stated fails when the column of the edit is the one named count:
    merging [{count: 1}] into [{count: 2}] gives [{count: 3}], next to the
    row [{count: 3}] that was there. *)
Lemma applySingleEdit_distinct_count_column :
  let hist : list (gmap string val) :=
    [{["count" := VNum (Int 1)]}; {["count" := VNum (Int 2)]};
     {["count" := VNum (Int 3)]}] in
  let e := mkEdit "count" (VNum (Int 1)) (VNum (Int 2)) 0 in
  (∃ r, hist !! 0%nat = Some r ∧ has_value (column e) (fromVal e) r) ∧
  distinct_values loose_eq (column e) hist ∧
  distinct_values strict_eq (column e) hist ∧
  applySingleEdit hist e =
    [{["count" := VNum (Int 3)]}; {["count" := VNum (Int 3)]}] ∧
  ¬ distinct_values loose_eq (column e) (applySingleEdit hist e) ∧
  ¬ distinct_values strict_eq (column e) (applySingleEdit hist e).
Proof.
  assert (∀ eq : val → val → bool,
    (∀ a b : Z, a ≠ b → eq (VNum (Int a)) (VNum (Int b)) = false) →
    distinct_values eq "count"
      [{["count" := VNum (Int 1)]}; {["count" := VNum (Int 2)]};
       {["count" := VNum (Int 3)]}]) as Hd.
  { intros eq Heq [|[|[|i]]] [|[|[|j]]] r1 r2 Hij Hi Hj; simplify_eq/=;
      by apply Heq. }
  split_and!.
  - eexists. split; reflexivity.
  - apply Hd. intros a b Hab. simpl. by apply bool_decide_eq_false.
  - apply Hd. intros a b Hab. simpl. by apply bool_decide_eq_false.
  - reflexivity.
  - intros Hout. by specialize (Hout 0%nat 1%nat _ _ ltac:(lia) eq_refl eq_refl).
  - intros Hout. by specialize (Hout 0%nat 1%nat _ _ ltac:(lia) eq_refl eq_refl).
Qed.

(** C7, amended, on a histogram of two cities. *)
Lemma applySingleEdit_preserves_distinct_witness :
  let hist := [mkRow "city" (VStr "NY") 3; mkRow "city" (VStr "Boston") 1] in
  let e := mkEdit "city" (VStr "NY") (VStr "Boston") 0 in
  let t := mkRow "city" (VStr "NY") 3 in
  (column e ≠ "count" ∧ hist !! 0%nat = Some t ∧
   has_value (column e) (fromVal e) t) ∧
  (distinct_values loose_eq (column e) hist →
   distinct_values loose_eq (column e) (applySingleEdit hist e)) ∧
  (distinct_values strict_eq (column e) hist →
   distinct_values strict_eq (column e) (applySingleEdit hist e)).
Proof.
  intros hist e t.
  assert (column e ≠ "count") as Hcol by (vm_compute; discriminate).
  assert (has_value (column e) (fromVal e) t) as Ht by (vm_compute; reflexivity).
  split; [done |].
  apply (applySingleEdit_preserves_distinct hist e 0%nat t Hcol eq_refl Ht).
Defined.

(** C8 on a histogram of two cities. *)
Lemma applySingleEdit_count_sum_witness :
  let hist := [mkRow "city" (VStr "NY") 3; mkRow "city" (VStr "Boston") 1] in
  let e := mkEdit "city" (VStr "NY") (VStr "Boston") 0 in
  let t := mkRow "city" (VStr "NY") 3 in
  (numeric_counts hist ∧ hist !! 0%nat = Some t ∧
   has_value (column e) (fromVal e) t) ∧
  count_sum (applySingleEdit hist e) = count_sum hist ∧
  numeric_counts (applySingleEdit hist e).
Proof.
  intros hist e t.
  assert (numeric_counts hist) as Hnum.
  { repeat constructor; eexists; reflexivity. }
  assert (has_value (column e) (fromVal e) t) as Ht by (vm_compute; reflexivity).
  split; [done |].
  apply (applySingleEdit_count_sum hist e 0%nat t Hnum eq_refl Ht).
Defined.

(** C5 as stated fails on a log with an edit of another column: the loop
    skips it, while a fold over the whole log would apply it (and, no row
    having a value at that column, drop the last row and add a new one). *)
Lemma loadHistogram_skips_other_columns :
  let state :=
    mkState false [] 0 [] [mkEdit "state" (VStr "NY") (VStr "New York") 0] in
  let histogram := mkHistogram [mkRow "city" (VStr "NY") 3] ["city"; "count"] in
  histogramData (loadHistogram "city" state histogram) = rows histogram ∧
  foldl applySingleEdit (rows histogram) (edits state) =
    [<["count" := VUndef]> {["state" := VStr "New York"]}] ∧
  histogramData (loadHistogram "city" state histogram) ≠
    foldl applySingleEdit (rows histogram) (edits state).
Proof. split_and!; [done | done |]. vm_compute. by intros [=]. Qed.

End RefineSpec.

(** * [applySingleEdit] on the heap: what it writes *)

Module RefineHeapSpec.
Import Refine RefineHeap.

Section heap.
Context {runtime : Runtime}.
Implicit Types (h : heap) (xs : list positive) (rs : list (gmap string val)).

Lemma run_bind {A B} (m : M A) (k : A → M B) h a h' :
  m h = Some (a, h') → (m ≫= k) h = k a h'.
Proof. intros Hm. unfold mbind, M_bind. by rewrite Hm. Qed.

Lemma rows_of_Some h a rs :
  rows_of h a = Some rs ↔ ∃ xs, arrays h !! a = Some xs ∧ rows_at h xs rs.
Proof.
  unfold rows_of. destruct (arrays h !! a) as [xs|]; simpl.
  - rewrite mapM_Some. split; [by exists xs |]. by intros (? & [= <-] & ?).
  - split; [done |]. by intros (? & ? & _).
Qed.

Lemma fresh_object h : objects h !! fresh (dom (objects h)) = None.
Proof. apply not_elem_of_dom, is_fresh. Qed.

Lemma fresh_array h : arrays h !! fresh (dom (arrays h)) = None.
Proof. apply not_elem_of_dom, is_fresh. Qed.

Lemma slice_run h a xs :
  arrays h !! a = Some xs →
  slice a h =
    Some (fresh (dom (arrays h)),
          mkHeap (objects h) (<[fresh (dom (arrays h)) := xs]> (arrays h))).
Proof. intros Ha. unfold slice, read_array, mbind, M_bind. by rewrite Ha. Qed.

Lemma index_run h a xs idx :
  arrays h !! a = Some xs →
  index a idx h =
    Some (match idx with Some i => xs !! i | None => None end, h).
Proof. intros Ha. unfold index, read_array, mbind, M_bind. by rewrite Ha. Qed.

Lemma member_run h r o k :
  objects h !! r = Some o → member r k h = Some (get o k, h).
Proof. intros Hr. unfold member, read_object, mbind, M_bind. by rewrite Hr. Qed.

Lemma set_member_run h r o k v :
  objects h !! r = Some o →
  set_member r k v h =
    Some (tt, mkHeap (<[r := <[k := v]> o]> (objects h)) (arrays h)).
Proof.
  intros Hr. unfold set_member, read_object, write_object, mbind, M_bind.
  by rewrite Hr; simpl; rewrite Hr.
Qed.

Lemma splice_run h a xs idx :
  arrays h !! a = Some xs →
  splice a idx h =
    Some (tt, mkHeap (objects h) (<[a := splice1 idx xs]> (arrays h))).
Proof.
  intros Ha. unfold splice, read_array, write_array, mbind, M_bind.
  by rewrite Ha; simpl; rewrite Ha.
Qed.

Lemma unshift_run h a xs r :
  arrays h !! a = Some xs →
  unshift a r h = Some (tt, mkHeap (objects h) (<[a := r :: xs]> (arrays h))).
Proof.
  intros Ha. unfold unshift, read_array, write_array, mbind, M_bind.
  by rewrite Ha; simpl; rewrite Ha.
Qed.

Lemma Object_assign_new_run h src o :
  match src with Some r => objects h !! r = Some o | None => o = ∅ end →
  Object_assign_new src h =
    Some (fresh (dom (objects h)),
          mkHeap (<[fresh (dom (objects h)) := o]> (objects h)) (arrays h)).
Proof.
  destruct src as [r|]; simpl.
  - intros Hr. unfold read_object, mbind, M_bind. by rewrite Hr.
  - by intros ->.
Qed.

Lemma findLoop_run h col v xs rs i :
  rows_at h xs rs →
  findLoop col v xs i h =
    Some ((λ k, (i + k)%nat) <$> Refine.findIndex col v rs, h).
Proof.
  intros Hrows. revert i. induction Hrows as [|r o xs rs Hr _ IH]; intros i.
  - done.
  - simpl. erewrite run_bind by by apply member_run.
    destruct (loose_eq (get o col) v).
    + simpl. by rewrite Nat.add_0_r.
    + rewrite IH. destruct (Refine.findIndex col v rs); simpl; [| done].
      do 3 f_equal. lia.
Qed.

Lemma findIndex_run h a col v xs rs :
  arrays h !! a = Some xs → rows_at h xs rs →
  findIndex a col v h = Some (Refine.findIndex col v rs, h).
Proof.
  intros Ha Hrows. unfold findIndex, read_array, mbind, M_bind at 1.
  rewrite Ha. simpl. rewrite (findLoop_run _ _ _ _ rs) by done.
  by destruct (Refine.findIndex col v rs).
Qed.

Lemma rows_at_splice1 h xs rs idx :
  rows_at h xs rs → rows_at h (splice1 idx xs) (splice1 idx rs).
Proof.
  intros Hrows. destruct idx as [i|]; simpl.
  - by apply Forall2_delete.
  - rewrite (Forall2_length _ _ _ Hrows). by apply Forall2_delete.
Qed.

(** Rows allocated in [h] are still there after an allocation. *)
Lemma rows_at_alloc h xs rs (objs : gmap positive (gmap string val)) :
  objects h ⊆ objs → rows_at h xs rs →
  Forall2 (λ r o, objs !! r = Some o) xs rs.
Proof.
  intros Hsub Hrows. eapply Forall2_impl; [done |].
  intros r o Hr. simpl in *. exact (lookup_weaken _ _ _ _ Hr Hsub).
Qed.

Lemma applySingleEdit_run h hist e xs rs :
  arrays h !! hist = Some xs → rows_at h xs rs →
  ∃ newHist h' new xs',
    applySingleEdit hist e h = Some (newHist, h') ∧
    objects h ⊆ objects h' ∧ arrays h ⊆ arrays h' ∧
    arrays h !! newHist = None ∧
    arrays h' !! newHist = Some (new :: xs') ∧
    objects h !! new = None ∧
    xs' `sublist_of` xs ∧
    rows_at h' (new :: xs') (Refine.applySingleEdit rs e).
Proof.
  intros Hxs Hrows. unfold applySingleEdit, Refine.applySingleEdit.
  set (fromIdx := Refine.findIndex (column e) (fromVal e) rs).
  set (a := fresh (dom (arrays h))).
  assert (arrays h !! a = None) as Ha by apply fresh_array.
  (* newHist = hist.slice() *)
  erewrite run_bind by by apply slice_run. fold a.
  set (h1 := mkHeap (objects h) (<[a := xs]> (arrays h))).
  assert (arrays h1 !! a = Some xs) as Ha1 by apply lookup_insert_eq.
  (* the first loop *)
  erewrite run_bind by by eapply (findIndex_run h1). fold fromIdx.
  erewrite run_bind by by eapply index_run.
  (* fromEntry = Object.assign({}, newHist[fromIdx]) *)
  set (fe := fresh (dom (objects h))).
  assert (objects h !! fe = None) as Hfe by apply fresh_object.
  erewrite run_bind; last first.
  { apply (Object_assign_new_run h1 _ (entryAt fromIdx rs)).
    destruct fromIdx as [i|] eqn:Hi; [| done].
    apply RefineSpec.findIndex_Some in Hi as (o & Hi & _). simpl. rewrite Hi. simpl.
    destruct (Forall2_lookup_r _ _ _ _ _ Hrows Hi) as (r & -> & Hr). done. }
  simpl. fold fe.
  set (fromEntry := entryAt fromIdx rs).
  set (objs2 := <[fe := fromEntry]> (objects h)).
  assert (objects h ⊆ objs2) as Hsub2 by by apply insert_subseteq.
  assert (objs2 !! fe = Some fromEntry) as Hfe2 by apply lookup_insert_eq.
  (* newHist.splice(fromIdx, 1) *)
  erewrite run_bind by (apply (splice_run _ _ xs); apply lookup_insert_eq).
  simpl. rewrite insert_insert_eq.
  set (xs1 := splice1 fromIdx xs). set (rs1 := splice1 fromIdx rs).
  assert (Forall2 (λ r o, objs2 !! r = Some o) xs1 rs1) as Hrows1.
  { apply (rows_at_alloc h); [done |]. by apply rows_at_splice1. }
  assert (xs1 `sublist_of` xs) as Hxs1.
  { unfold xs1, splice1. destruct fromIdx; apply sublist_delete. }
  (* the second loop *)
  erewrite run_bind; last first.
  { eapply (findIndex_run _ _ _ _ xs1 rs1); [apply lookup_insert_eq | done]. }
  destruct (Refine.findIndex (column e) (toVal e) rs1) as [j|] eqn:Hj.
  - (* merge into the to-row *)
    apply RefineSpec.findIndex_Some in Hj as (t & Hj & _).
    destruct (Forall2_lookup_r _ _ _ _ _ Hrows1 Hj) as (rt & Hrt & Ht).
    rewrite Hj. simpl.
    erewrite run_bind by (apply (index_run _ _ xs1); apply lookup_insert_eq).
    rewrite Hrt.
    set (te := fresh (dom objs2)).
    assert (objs2 !! te = None) as Hte by apply not_elem_of_dom, is_fresh.
    erewrite run_bind by by apply (Object_assign_new_run _ (Some rt) t).
    simpl. fold te.
    erewrite run_bind by (apply (splice_run _ _ xs1); apply lookup_insert_eq).
    simpl. rewrite insert_insert_eq.
    erewrite run_bind by (apply (member_run _ _ t); apply lookup_insert_eq).
    erewrite run_bind; last first.
    { apply (member_run _ _ fromEntry). simpl.
      rewrite lookup_insert_ne by congruence. done. }
    erewrite run_bind by (apply (set_member_run _ _ t); apply lookup_insert_eq).
    simpl. rewrite insert_insert_eq.
    erewrite run_bind by (apply (unshift_run _ _ (delete j xs1)); apply lookup_insert_eq).
    simpl. rewrite insert_insert_eq.
    eexists a, _, te, (delete j xs1). split; [reflexivity |]. simpl.
    assert (objs2 ⊆ <[te := <["count" := js_add (get t "count") (get fromEntry "count")]> t]> objs2)
      as Hsub3 by by apply insert_subseteq.
    split_and!.
    + by etrans.
    + by apply insert_subseteq.
    + done.
    + apply lookup_insert_eq.
    + by eapply lookup_weaken_None.
    + etrans; [apply sublist_delete | done].
    + constructor; [apply lookup_insert_eq |].
      eapply Forall2_impl; [by apply Forall2_delete |].
      intros r o Hr. simpl in *. exact (lookup_weaken _ _ _ _ Hr Hsub3).
  - (* a new row *)
    set (ne := fresh (dom objs2)).
    assert (objs2 !! ne = None) as Hne by apply not_elem_of_dom, is_fresh.
    erewrite run_bind by reflexivity. simpl. fold ne.
    erewrite run_bind by (apply (set_member_run _ _ ∅); apply lookup_insert_eq).
    simpl. rewrite insert_insert_eq.
    erewrite run_bind; last first.
    { apply (member_run _ _ fromEntry). simpl.
      rewrite lookup_insert_ne by congruence. done. }
    erewrite run_bind by (eapply set_member_run; apply lookup_insert_eq).
    simpl. rewrite insert_insert_eq.
    erewrite run_bind by (apply (unshift_run _ _ xs1); apply lookup_insert_eq).
    simpl. rewrite insert_insert_eq.
    eexists a, _, ne, xs1. split; [reflexivity |]. simpl.
    assert (objs2 ⊆ <[ne := <["count" := get fromEntry "count"]> (<[column e := toVal e]> ∅)]> objs2)
      as Hsub3 by by apply insert_subseteq.
    split_and!.
    + by etrans.
    + by apply insert_subseteq.
    + done.
    + apply lookup_insert_eq.
    + by eapply lookup_weaken_None.
    + done.
    + constructor; [apply lookup_insert_eq |].
      eapply Forall2_impl; [done |].
      intros r o Hr. simpl in *. exact (lookup_weaken _ _ _ _ Hr Hsub3).
Qed.

(** C9.  [applySingleEdit] does not write to its input.  Called on an array
    [hist] of row objects, it returns; afterwards [hist] holds the same
    references [xs] in the same order, and every object that existed before
    the call, the rows of [hist] among them, has the fields it had.  The
    result is another array; its first row is an object that did not exist
    before, and its other rows are rows of [hist] in their order.  The rows
    of the result are those [Refine.applySingleEdit] computes. *)
Theorem applySingleEdit_input_unchanged h hist e rs :
  rows_of h hist = Some rs →
  ∃ newHist h' new xs xs',
    applySingleEdit hist e h = Some (newHist, h') ∧
    arrays h !! hist = Some xs ∧ arrays h' !! hist = Some xs ∧
    (∀ r o, objects h !! r = Some o → objects h' !! r = Some o) ∧
    rows_of h' hist = Some rs ∧
    newHist ≠ hist ∧
    arrays h' !! newHist = Some (new :: xs') ∧
    objects h !! new = None ∧
    xs' `sublist_of` xs ∧
    rows_of h' newHist = Some (Refine.applySingleEdit rs e).
Proof.
  intros (xs & Hxs & Hrows)%rows_of_Some.
  destruct (applySingleEdit_run h hist e xs rs Hxs Hrows)
    as (newHist & h' & new & xs' & Hrun & Hobjs & Harrs & Hfresh & Hout
        & Hnew & Hsub & Hrows').
  exists newHist, h', new, xs, xs'.
  assert (arrays h' !! hist = Some xs) as Hxs'
    by exact (lookup_weaken _ _ _ _ Hxs Harrs).
  split_and!; try done.
  - intros r o Hr. exact (lookup_weaken _ _ _ _ Hr Hobjs).
  - apply rows_of_Some. exists xs. split; [done |].
    by apply (rows_at_alloc h).
  - congruence.
  - apply rows_of_Some. by exists (new :: xs').
Qed.

End heap.

#[local] Existing Instance decimal_runtime.

(** C9 on a heap with one array of two rows. *)
Lemma applySingleEdit_input_unchanged_witness :
  let rs := [mkRow "city" (VStr "NY") 3; mkRow "city" (VStr "New York") 5] in
  let h :=
    mkHeap (<[1%positive := mkRow "city" (VStr "NY") 3]>
              {[2%positive := mkRow "city" (VStr "New York") 5]})
           {[1%positive := [1%positive; 2%positive]]} in
  let e := mkEdit "city" (VStr "NY") (VStr "New York") 0 in
  rows_of h 1%positive = Some rs ∧
  ∃ newHist h' new xs xs',
    applySingleEdit 1%positive e h = Some (newHist, h') ∧
    arrays h !! 1%positive = Some xs ∧ arrays h' !! 1%positive = Some xs ∧
    (∀ r o, objects h !! r = Some o → objects h' !! r = Some o) ∧
    rows_of h' 1%positive = Some rs ∧
    newHist ≠ 1%positive ∧
    arrays h' !! newHist = Some (new :: xs') ∧
    objects h !! new = None ∧
    xs' `sublist_of` xs ∧
    rows_of h' newHist = Some (Refine.applySingleEdit rs e).
Proof.
  intros rs h e.
  assert (rows_of h 1%positive = Some rs) as Hrs by reflexivity.
  split; [done |].
  apply (applySingleEdit_input_unchanged h 1%positive e rs Hrs).
Defined.

End RefineHeapSpec.

(** * Doubles: rounding gives doubles, and the order of the non-negative
      ones *)

Module DoubleSpec.
Import Double.

#[local] Open Scope Z_scope.

Lemma fexp_eq x : fexp prec emax x = Z.max (x - 53) (-1074).
Proof. reflexivity. Qed.

Lemma digits2_pos_size p : digits2_pos p = Pos.size p.
Proof. induction p as [p IH|p IH|]; simpl; by rewrite ?IH. Qed.

Lemma Zdigits2_log2 m : 0 < m → Zdigits2 m = Z.log2 m + 1.
Proof.
  destruct m as [|p|p]; [lia | | lia]. intros _. simpl.
  rewrite digits2_pos_size. destruct p as [p|p|]; simpl; lia.
Qed.

Lemma Zdigits2_nonneg m : 0 ≤ Zdigits2 m.
Proof. destruct m; simpl; lia. Qed.

Lemma Zdigits2_spec m :
  0 < m → 1 ≤ Zdigits2 m ∧ 2 ^ (Zdigits2 m - 1) ≤ m < 2 ^ Zdigits2 m.
Proof.
  intros Hm. rewrite (Zdigits2_log2 m Hm).
  pose proof (Z.log2_nonneg m). pose proof (Z.log2_spec m Hm).
  replace (Z.log2 m + 1 - 1) with (Z.log2 m) by lia.
  replace (Z.log2 m + 1) with (Z.succ (Z.log2 m)) by lia. lia.
Qed.

Lemma Zdigits2_unique m d :
  1 ≤ d → 2 ^ (d - 1) ≤ m < 2 ^ d → Zdigits2 m = d.
Proof.
  intros Hd Hm.
  assert (0 < m) as Hpos.
  { pose proof (Z.pow_pos_nonneg 2 (d - 1)). lia. }
  rewrite (Zdigits2_log2 m Hpos).
  rewrite (Z.log2_unique m (d - 1)); [lia | lia |].
  by replace (Z.succ (d - 1)) with d by lia.
Qed.

Lemma Zdigits2_mul_pow2 m k :
  0 < m → 0 ≤ k → Zdigits2 (m * 2 ^ k) = Zdigits2 m + k.
Proof.
  intros Hm Hk.
  assert (0 < m * 2 ^ k) by (pose proof (Z.pow_pos_nonneg 2 k); nia).
  rewrite !Zdigits2_log2, Z.log2_mul_pow2 by done. lia.
Qed.

Lemma Zdigits2_div_pow2 m k :
  0 < m → 0 ≤ k →
  (m / 2 ^ k = 0 ∧ Zdigits2 m ≤ k) ∨
  (0 < m / 2 ^ k ∧ Zdigits2 (m / 2 ^ k) = Zdigits2 m - k).
Proof.
  intros Hm Hk. rewrite <-Z.shiftr_div_pow2 by done.
  destruct (decide (Z.log2 m < k)) as [Hlt | Hge].
  - left. split; [apply Z.shiftr_eq_0; lia |]. rewrite Zdigits2_log2; lia.
  - right.
    assert (0 < m ≫ k) as Hpos.
    { pose proof (Z.shiftr_nonneg m k).
      destruct (decide (m ≫ k = 0)) as [H0 | ?]; [| lia].
      apply Z.shiftr_eq_0_iff in H0. lia. }
    split; [done |]. rewrite !Zdigits2_log2, Z.log2_shiftr by done. lia.
Qed.

Lemma Zdigits2_succ m :
  0 < m →
  Zdigits2 (m + 1) = Zdigits2 m ∨
  (Zdigits2 (m + 1) = Zdigits2 m + 1 ∧ m + 1 = 2 ^ Zdigits2 m).
Proof.
  intros Hm. destruct (Zdigits2_spec m Hm) as (Hd & Hlo & Hhi).
  destruct (decide (m + 1 = 2 ^ Zdigits2 m)) as [Heq | Hne].
  - right. split; [| done]. apply Zdigits2_unique; [lia |].
    replace (Zdigits2 m + 1 - 1) with (Zdigits2 m) by lia.
    rewrite Z.pow_add_r by lia. lia.
  - left. apply Zdigits2_unique; [done | lia].
Qed.

(** *** Shifts *)

Lemma pow_xO p : 2 ^ Z.pos p~0 = 2 ^ Z.pos p * 2 ^ Z.pos p.
Proof.
  rewrite (Pos2Z.inj_xO p). replace (2 * Z.pos p) with (Z.pos p + Z.pos p) by lia.
  by rewrite (Z.pow_add_r 2 (Z.pos p) (Z.pos p)) by lia.
Qed.

Lemma pow_xI p : 2 ^ Z.pos p~1 = 2 * (2 ^ Z.pos p * 2 ^ Z.pos p).
Proof.
  rewrite (Pos2Z.inj_xI p), <-pow_xO.
  replace (2 * Z.pos p + 1) with (1 + Z.pos p~0) by lia.
  by rewrite (Z.pow_add_r 2 1 (Z.pos p~0)) by lia.
Qed.

Lemma shr_1_m mrs : 0 ≤ shr_m mrs → shr_m (shr_1 mrs) = shr_m mrs / 2.
Proof.
  destruct mrs as [m r s]. simpl. intros Hm.
  destruct m as [|[p|p|]|p]; simpl; try done; try lia.
  - apply (Z.div_unique _ _ _ 1); lia.
  - apply (Z.div_unique _ _ _ 0); lia.
Qed.

Lemma iter_shr_1_m p mrs :
  0 ≤ shr_m mrs → shr_m (SpecFloat.iter_pos shr_1 p mrs) = shr_m mrs / 2 ^ Z.pos p.
Proof.
  revert mrs. induction p as [p IH|p IH|]; intros mrs Hm; simpl SpecFloat.iter_pos.
  - assert (0 ≤ shr_m (shr_1 mrs)) as H1.
    { rewrite shr_1_m by done. by apply Z.div_pos. }
    assert (0 ≤ shr_m (SpecFloat.iter_pos shr_1 p (shr_1 mrs))) as H2.
    { rewrite IH by done. apply Z.div_pos; [done |]. by apply Z.pow_pos_nonneg. }
    rewrite !IH, shr_1_m by done.
    pose proof (Z.pow_pos_nonneg 2 (Z.pos p)).
    rewrite !Z.div_div by lia. f_equal.
    rewrite pow_xI. lia.
  - assert (0 ≤ shr_m (SpecFloat.iter_pos shr_1 p mrs)) as H2.
    { rewrite IH by done. apply Z.div_pos; [done |]. by apply Z.pow_pos_nonneg. }
    rewrite !IH by done.
    pose proof (Z.pow_pos_nonneg 2 (Z.pos p)).
    rewrite !Z.div_div by lia. f_equal.
    by rewrite pow_xO.
  - rewrite shr_1_m by done. done.
Qed.

Lemma iter_xO m d : Z.pos (Pos.iter xO m d) = Z.pos m * 2 ^ Z.pos d.
Proof.
  induction d as [|d IH] using Pos.peano_ind.
  - simpl. lia.
  - rewrite Pos.iter_succ, Pos2Z.inj_succ, Z.pow_succ_r by lia.
    rewrite (Pos2Z.inj_xO (Pos.iter xO m d)), IH. lia.
Qed.

Lemma shl_align_spec m e e' :
  let '(mz, ez) := shl_align m e e' in
  ez = Z.min e e' ∧ Z.pos mz = Z.pos m * 2 ^ (e - ez).
Proof.
  unfold shl_align. destruct (e' - e) as [|d|d] eqn:Hd.
  - split; [lia |]. replace (e - e) with 0 by lia. lia.
  - split; [lia |]. replace (e - e) with 0 by lia. lia.
  - split; [lia |]. rewrite iter_xO. f_equal. f_equal. lia.
Qed.

Lemma shr_fexp_spec m e l mrs e' :
  0 ≤ m → shr_fexp prec emax m e l = (mrs, e') →
  let f := fexp prec emax (Zdigits2 m + e) in
  (e ≤ f → e' = f ∧ shr_m mrs = m / 2 ^ (f - e)) ∧
  (f ≤ e → e' = e ∧ shr_m mrs = m).
Proof.
  intros Hm Hshr f. unfold shr_fexp, shr in Hshr. fold f in Hshr.
  assert (shr_m (shr_record_of_loc m l) = m) as Hrec by by destruct l as [|[]].
  destruct (f - e) as [|p|p] eqn:Hn; injection Hshr as <- <-.
  - split; intros; (split; [lia |]); rewrite ?Hrec; try done.
    change (2 ^ 0) with 1. by rewrite Z.div_1_r.
  - split; intros; [| lia]. split; [lia |].
    rewrite iter_shr_1_m by (by rewrite Hrec). by rewrite Hrec.
  - split; intros; [lia |]. by split.
Qed.

(** *** Rounding *)

Lemma canonical_shr m e :
  0 ≤ m → e ≤ fexp prec emax (Zdigits2 m + e) →
  let f := fexp prec emax (Zdigits2 m + e) in
  0 ≤ m / 2 ^ (f - e) ∧ canonical (m / 2 ^ (f - e)) f ∧
  (0 < m → -1074 ≤ e → 0 < m / 2 ^ (f - e)).
Proof.
  intros Hm He f. unfold canonical. rewrite fexp_eq in He. 
  assert (f = Z.max (Zdigits2 m + e - 53) (-1074)) as Hf by reflexivity.
  pose proof (Z.pow_pos_nonneg 2 (f - e)).
  split; [apply Z.div_pos; lia |].
  destruct (decide (m = 0)) as [-> | Hne].
  { simpl in *. rewrite Z.div_0_l by lia. simpl. rewrite fexp_eq. lia. }
  destruct (Zdigits2_div_pow2 m (f - e)) as [[H0 Hd] | [Hpos Hd]]; [lia | lia | |].
  - rewrite H0. simpl. rewrite fexp_eq. pose proof (Zdigits2_spec m). lia.
  - rewrite Hd, fexp_eq. lia.
Qed.

Lemma round_nearest_even_cases m l :
  round_nearest_even m l = m ∨ round_nearest_even m l = m + 1.
Proof. destruct l as [|[]]; simpl; auto. destruct (Z.even m); auto. Qed.

Lemma canonical_round m f l mrs e' :
  0 ≤ m → canonical m f →
  shr_fexp prec emax (round_nearest_even m l) f loc_Exact = (mrs, e') →
  0 ≤ shr_m mrs ∧ (0 < m → 0 < shr_m mrs) ∧
  (shr_m mrs ≠ 0 → canonical (shr_m mrs) e').
Proof.
  unfold canonical. intros Hm Hc Hshr. rewrite fexp_eq in Hc.
  assert (0 ≤ round_nearest_even m l) as Hr
    by (destruct (round_nearest_even_cases m l) as [-> | ->]; lia).
  destruct (shr_fexp_spec _ _ _ _ _ Hr Hshr) as [Hle Hge].
  rewrite fexp_eq in Hle, Hge.
  destruct (round_nearest_even_cases m l) as [Heq | Heq]; rewrite Heq in *.
  - destruct Hge as [-> ->]; [lia |]. split_and!; [done | done |].
    intros _. rewrite fexp_eq. lia.
  - destruct (decide (m = 0)) as [-> | Hne].
    { simpl in *. destruct Hge as [-> ->]; [lia |].
      split_and!; [done | lia |]. intros _. rewrite fexp_eq. simpl. lia. }
    destruct (Zdigits2_spec m) as (Hd1 & Hlo & Hhi); [lia |].
    destruct (Zdigits2_succ m) as [Hd | [Hd Hpow]]; [lia | |]; rewrite Hd in *.
    + destruct Hge as [-> ->]; [lia |]. split_and!; [lia | lia |].
      intros _. rewrite Hd, fexp_eq. lia.
    + destruct (decide (Zdigits2 m = 53)) as [H53 | H53].
      * destruct Hle as [-> ->]; [lia |].
        replace (Z.max (Zdigits2 m + 1 + f - 53) (-1074) - f) with 1 by lia.
        rewrite Hpow, H53. change (2 ^ 53 / 2 ^ 1) with (2 ^ 52).
        split_and!; [done | done |]. intros _.
        change (Zdigits2 (2 ^ 52)) with 53. rewrite fexp_eq. lia.
      * destruct Hge as [-> ->]; [lia |]. split_and!; [lia | lia |].
        intros _. rewrite Hd, fexp_eq. lia.
Qed.

Lemma binary_round_aux_valid s m e l :
  0 ≤ m → e ≤ fexp prec emax (Zdigits2 m + e) →
  valid_binary prec emax (binary_round_aux prec emax s m e l) = true ∧
  signed s (binary_round_aux prec emax s m e l) ∧
  (0 < m → -1074 ≤ e →
   truthy (binary_round_aux prec emax s m e l) = true).
Proof.
  intros Hm He. unfold binary_round_aux.
  destruct (shr_fexp prec emax m e l) as [mrs1 e1] eqn:H1.
  destruct (shr_fexp_spec _ _ _ _ _ Hm H1) as [[-> Hm1] _]; [done |].
  destruct (canonical_shr m e Hm He) as (Hpos1 & Hc1 & Hnz1).
  rewrite <-Hm1 in Hpos1, Hc1, Hnz1.
  destruct (shr_fexp prec emax (round_nearest_even _ _) _ loc_Exact)
    as [mrs2 e2] eqn:H2.
  destruct (canonical_round _ _ _ _ _ Hpos1 Hc1 H2) as (Hpos2 & Hnz2 & Hc2).
  destruct (shr_m mrs2) as [|m2|m2] eqn:Hm2; [| | lia].
  - split_and!; [done | done |]. intros ??. lia.
  - destruct (e2 <=? emax - prec) eqn:Hle; simpl; [| done].
    split_and!; [| done | done].
    unfold bounded, canonical_mantissa. rewrite Hle, andb_true_r.
    apply Z.eqb_eq. apply Hc2. done.
Qed.

Lemma binary_round_valid s m e :
  valid_binary prec emax (binary_round prec emax s m e) = true ∧
  signed s (binary_round prec emax s m e) ∧
  (-1074 ≤ e → truthy (binary_round prec emax s m e) = true).
Proof.
  unfold binary_round.
  pose proof (shl_align_spec m e (fexp prec emax (Z.pos (digits2_pos m) + e)))
    as Hshl.
  destruct (shl_align _ _ _) as [mz ez]. destruct Hshl as [Hez Hmz].
  change (Z.pos (digits2_pos m)) with (Zdigits2 (Z.pos m)) in Hez.
  assert (0 ≤ e - ez) as Hk by lia.
  assert (Zdigits2 (Z.pos mz) + ez = Zdigits2 (Z.pos m) + e) as Hd.
  { rewrite Hmz, Zdigits2_mul_pow2 by lia. lia. }
  destruct (binary_round_aux_valid s (Z.pos mz) ez loc_Exact) as (Hv & Hs & Hnz);
    [lia | rewrite Hd; lia |].
  split_and!; [done | done |]. intros He. apply Hnz; [lia |].
  rewrite fexp_eq in Hez. lia.
Qed.

Lemma binary_normalize_valid z e :
  valid_binary prec emax (binary_normalize prec emax z e false) = true ∧
  signed (z <? 0) (binary_normalize prec emax z e false) ∧
  (-1074 ≤ e →
   truthy (binary_normalize prec emax z e false) = bool_decide (z ≠ 0)).
Proof.
  destruct z as [|m|m]; simpl.
  - done.
  - destruct (binary_round_valid false m e) as (? & ? & Hnz).
    split_and!; [done | done |]. intros He. by rewrite Hnz.
  - destruct (binary_round_valid true m e) as (? & ? & Hnz).
    split_and!; [done | done |]. intros He. by rewrite Hnz.
Qed.

(** *** The order *)

Lemma bounded_spec m e :
  bounded prec emax m e = true →
  -1074 ≤ e ≤ 971 ∧ Zdigits2 (Z.pos m) ≤ 53 ∧
  (-1074 < e → Zdigits2 (Z.pos m) = 53).
Proof.
  unfold bounded, canonical_mantissa. intros [Hc He]%andb_true_iff.
  apply Z.eqb_eq in Hc. apply Z.leb_le in He. rewrite fexp_eq in Hc.
  change (emax - prec) with 971 in He. simpl. lia.
Qed.

Lemma units_finite m e :
  bounded prec emax m e = true →
  0 < Z.pos m * 2 ^ (e + 1074) < 2 ^ 2098.
Proof.
  intros (He & Hd & _)%bounded_spec.
  destruct (Zdigits2_spec (Z.pos m)) as (_ & _ & Hhi); [lia |].
  pose proof (Z.pow_pos_nonneg 2 (e + 1074)).
  assert (Z.pos m < 2 ^ 53) as Hm.
  { eapply Z.lt_le_trans; [done |]. apply Z.pow_le_mono_r; lia. }
  assert (2 ^ (e + 1074) ≤ 2 ^ 2045) by (apply Z.pow_le_mono_r; lia).
  split; [nia |].
  change (2 ^ 2098) with (2 ^ 53 * 2 ^ 2045). nia.
Qed.

Lemma units_lt m1 e1 m2 e2 :
  bounded prec emax m1 e1 = true → bounded prec emax m2 e2 = true →
  e1 < e2 → Z.pos m1 * 2 ^ (e1 + 1074) < Z.pos m2 * 2 ^ (e2 + 1074).
Proof.
  intros (He1 & Hd1 & _)%bounded_spec (He2 & _ & Hd2)%bounded_spec Hlt.
  destruct (Zdigits2_spec (Z.pos m1)) as (_ & _ & Hhi); [lia |].
  destruct (Zdigits2_spec (Z.pos m2)) as (_ & Hlo & _); [lia |].
  rewrite Hd2 in Hlo by lia. change (2 ^ (53 - 1)) with (2 ^ 52) in Hlo.
  assert (Z.pos m1 < 2 ^ 53) as Hm.
  { eapply Z.lt_le_trans; [done |]. apply Z.pow_le_mono_r; lia. }
  replace (e2 + 1074) with (e2 - e1 - 1 + 1 + (e1 + 1074)) by lia.
  rewrite (Z.pow_add_r 2 (e2 - e1 - 1 + 1) (e1 + 1074)) by lia.
  rewrite (Z.pow_add_r 2 (e2 - e1 - 1) 1) by lia.
  pose proof (Z.pow_pos_nonneg 2 (e1 + 1074)).
  pose proof (Z.pow_pos_nonneg 2 (e2 - e1 - 1)).
  change (2 ^ 53) with (2 * 2 ^ 52) in Hm. change (2 ^ 1) with 2.
  generalize dependent (2 ^ 52). intros P HP Hm.
  generalize dependent (2 ^ (e1 + 1074)). intros A HA.
  generalize dependent (2 ^ (e2 - e1 - 1)). intros B HB.
  assert (Z.pos m1 * A < 2 * P * A) by nia.
  assert (2 * P * A ≤ 2 * Z.pos m2 * A) by nia.
  assert (1 ≤ B) by lia.
  assert (2 * Z.pos m2 * A * 1 ≤ 2 * Z.pos m2 * A * B) by (apply Z.mul_le_mono_nonneg_l; lia).
  lia.
Qed.

Lemma compare_units x y :
  nonneg x → nonneg y → SFcompare x y = Some (units x ?= units y).
Proof.
  intros [Hvx Hsx] [Hvy Hsy].
  destruct x as [[]|[]| |[] m1 e1], y as [[]|[]| |[] m2 e2]; try done;
    simpl in Hvx, Hvy; cbn [SFcompare units].
  - pose proof (units_finite m2 e2 Hvy). f_equal. symmetry.
    apply Z.compare_lt_iff. lia.
  - pose proof (units_finite m2 e2 Hvy). f_equal. symmetry.
    apply Z.compare_gt_iff. lia.
  - pose proof (units_finite m1 e1 Hvx). f_equal. symmetry.
    apply Z.compare_gt_iff. lia.
  - pose proof (units_finite m1 e1 Hvx). f_equal. symmetry.
    apply Z.compare_lt_iff. lia.
  - f_equal. destruct (Z.compare_spec e1 e2) as [-> | Hlt | Hgt]; symmetry.
    + pose proof (Z.pow_pos_nonneg 2 (e2 + 1074)).
      destruct (bounded_spec m1 e2 Hvx) as (? & _).
      rewrite <-Zmult_compare_compat_r by lia. done.
    + apply Z.compare_lt_iff. by apply units_lt.
    + apply Z.compare_gt_iff. apply units_lt; [done | done | lia].
Qed.

Lemma ltb_units x y :
  nonneg x → nonneg y → ltb x y = true ↔ units x < units y.
Proof.
  intros Hx Hy. unfold ltb, SFltb. rewrite (compare_units x y Hx Hy).
  rewrite <-Z.compare_lt_iff. by destruct (units x ?= units y).
Qed.

Lemma eqb_units x y :
  nonneg x → nonneg y → eqb x y = true ↔ units x = units y.
Proof.
  intros Hx Hy. unfold eqb, SFeqb. rewrite (compare_units x y Hx Hy).
  rewrite <-Z.compare_eq_iff. by destruct (units x ?= units y).
Qed.

(** *** Arithmetic *)

Lemma signed_pos x : signed false x → truthy x = true → ltb zero x = true.
Proof. by destruct x as [[]|[]| |[] ??]. Qed.

Lemma signed_neg x : signed true x → ltb zero x = false.
Proof. by destruct x as [[]|[]| |[] ??]. Qed.

Lemma of_Z_pos z : ltb zero (of_Z z) = bool_decide (0 < z).
Proof.
  destruct (binary_normalize_valid z 0) as (_ & Hs & Hnz). fold (of_Z z) in *.
  specialize (Hnz ltac:(lia)).
  destruct (Z.ltb_spec z 0).
  - rewrite signed_neg by done. by rewrite bool_decide_eq_false_2 by lia.
  - destruct (decide (z = 0)) as [-> | Hne]; [done |].
    rewrite signed_pos; [by rewrite bool_decide_eq_true_2 by lia | done |].
    by rewrite Hnz, bool_decide_eq_true_2.
Qed.

Lemma of_Z_nonneg z : 0 ≤ z → nonneg (of_Z z).
Proof.
  intros Hz. destruct (binary_normalize_valid z 0) as (Hv & Hs & _).
  fold (of_Z z) in *. split; [done |].
  replace (z <? 0) with false in Hs by (symmetry; apply Z.ltb_ge; lia).
  destruct (of_Z z) as [[]|[]| |[] ??]; done.
Qed.

Lemma nonneg_signed x :
  valid_binary prec emax x = true → signed false x → nonneg x.
Proof. intros Hv Hs. split; [done |]. by destruct x as [[]|[]| |[] ??]. Qed.

(** The mantissa of a number written at a smaller exponent. *)
Lemma aligned m e ez :
  ez ≤ e → Z.pos (shl_align m e ez).1 = Z.pos m * 2 ^ (e - ez).
Proof.
  intros He. pose proof (shl_align_spec m e ez) as Hshl.
  destruct (shl_align m e ez) as [mz ez']. destruct Hshl as [-> Hmz]. simpl.
  rewrite Hmz. by replace (e `min` ez) with ez by lia.
Qed.

Lemma add_nonneg x y : nonneg x → nonneg y → nonneg (add x y).
Proof.
  intros [Hvx Hsx] [Hvy Hsy].
  destruct x as [[]|[]| |[] m1 e1], y as [[]|[]| |[] m2 e2]; try done.
  unfold add, SFadd. simpl cond_Zopp.
  destruct (binary_normalize_valid
              (Z.pos (shl_align m1 e1 (e1 `min` e2)).1
               + Z.pos (shl_align m2 e2 (e1 `min` e2)).1) (e1 `min` e2))
    as (Hv & Hs & _).
  apply nonneg_signed; [done |].
  by replace (_ <? 0) with false in Hs by (symmetry; apply Z.ltb_ge; lia).
Qed.

Lemma div_eucl_spec a b q r :
  0 ≤ a → 0 < b → Z.div_eucl a b = (q, r) → q = a / b ∧ 0 ≤ q.
Proof.
  intros Ha Hb Hqr. unfold Z.div. rewrite Hqr. simpl. split; [done |].
  replace q with (a / b) by (unfold Z.div; by rewrite Hqr).
  apply Z.div_pos; lia.
Qed.

Lemma div_core_canonical m1 e1 m2 e2 q e' l :
  SFdiv_core_binary prec emax (Z.pos m1) e1 (Z.pos m2) e2 = (q, e', l) →
  0 ≤ q ∧ e' ≤ fexp prec emax (Zdigits2 q + e').
Proof.
  unfold SFdiv_core_binary.
  set (d1 := Zdigits2 (Z.pos m1)). set (d2 := Zdigits2 (Z.pos m2)).
  set (e0 := Z.min (fexp prec emax (d1 + e1 - (d2 + e2))) (e1 - e2)).
  set (s := e1 - e2 - e0).
  set (m' := match s with
             | 0 => Z.pos m1
             | Z.pos _ => Z.pos m1 ≪ s
             | Z.neg _ => 0
             end).
  destruct (Z.div_eucl m' (Z.pos m2)) as [q0 r0] eqn:Hdiv.
  intros [= <- <- <-].
  assert (0 ≤ s) as Hs by (unfold s, e0; lia).
  assert (m' = Z.pos m1 * 2 ^ s) as Hm'.
  { unfold m'. destruct s as [|p|p] eqn:Hp; [lia | | lia].
    by rewrite Z.shiftl_mul_pow2. }
  pose proof (Z.pow_pos_nonneg 2 s).
  destruct (div_eucl_spec m' (Z.pos m2) q0 r0) as [Hq Hpos]; [nia | lia | done |].
  split; [done |].
  assert (d1 + s - d2 ≤ Zdigits2 q0) as Hd.
  { destruct (Zdigits2_spec (Z.pos m1)) as (Hd1 & Hlo1 & _); [lia |].
    destruct (Zdigits2_spec (Z.pos m2)) as (Hd2 & _ & Hhi2); [lia |].
    fold d1 in Hlo1, Hd1. fold d2 in Hhi2, Hd2.
    destruct (decide (d1 + s - d2 ≤ 0)) as [? | Hgt].
    { pose proof (Zdigits2_nonneg q0). lia. }
    assert (2 ^ (d1 - 1 + s - d2) ≤ q0) as Hq0.
    { rewrite Hq, Hm'. apply Z.div_le_lower_bound; [lia |].
      trans (2 ^ d2 * 2 ^ (d1 - 1 + s - d2)).
      - apply Z.mul_le_mono_nonneg_r; [| lia].
        apply Z.pow_nonneg. lia.
      - rewrite <-Z.pow_add_r by lia.
        replace (d2 + (d1 - 1 + s - d2)) with (d1 - 1 + s) by lia.
        rewrite Z.pow_add_r by lia.
        apply Z.mul_le_mono_nonneg_r; [lia | done]. }
    assert (0 < q0) as Hq0pos.
    { pose proof (Z.pow_pos_nonneg 2 (d1 - 1 + s - d2)). lia. }
    rewrite Zdigits2_log2 by done.
    apply Z.log2_le_pow2 in Hq0; [lia | done]. }
  rewrite fexp_eq. unfold e0 at 1. rewrite fexp_eq. unfold s in Hd. lia.
Qed.

Lemma div_nonneg m e y :
  nonneg y → nonneg (div (S754_finite false m e) y).
Proof.
  intros [Hvy Hsy]. destruct y as [[]|[]| |[] m2 e2]; try done.
  unfold div, SFdiv.
  destruct (SFdiv_core_binary prec emax (Z.pos m) e (Z.pos m2) e2)
    as [[q e'] l] eqn:Hcore.
  destruct (div_core_canonical _ _ _ _ _ _ _ Hcore) as [Hq He'].
  destruct (binary_round_aux_valid false q e' l Hq He') as (Hv & Hs & _).
  by apply nonneg_signed.
Qed.

(** [y - x] has the sign of the difference, and is falsy exactly when the
    two numbers are the same. *)
Lemma sub_units x y :
  nonneg x → nonneg y →
  truthy (sub y x) = bool_decide (units x ≠ units y) ∧
  ltb zero (sub y x) = bool_decide (units x < units y).
Proof.
  intros [Hvx Hsx] [Hvy Hsy].
  destruct x as [[]|[]| |[] m1 e1], y as [[]|[]| |[] m2 e2]; try done;
    simpl in Hvx, Hvy.
  - pose proof (units_finite m2 e2 Hvy). simpl.
    rewrite !bool_decide_eq_true_2 by lia. done.
  - pose proof (units_finite m2 e2 Hvy). simpl.
    rewrite bool_decide_eq_true_2, bool_decide_eq_false_2 by lia. done.
  - pose proof (units_finite m1 e1 Hvx). simpl.
    rewrite bool_decide_eq_true_2, bool_decide_eq_false_2 by lia. done.
  - pose proof (units_finite m1 e1 Hvx). simpl.
    rewrite !bool_decide_eq_true_2 by lia. done.
  - unfold sub, SFsub. simpl cond_Zopp.
    set (ez := e2 `min` e1).
    rewrite !aligned by lia.
    set (d := Z.pos m2 * 2 ^ (e2 - ez) - Z.pos m1 * 2 ^ (e1 - ez)).
    destruct (bounded_spec m1 e1 Hvx) as (He1 & _).
    destruct (bounded_spec m2 e2 Hvy) as (He2 & _).
    assert (units (S754_finite false m2 e2) - units (S754_finite false m1 e1)
            = d * 2 ^ (ez + 1074)) as Hd.
    { simpl. unfold d. rewrite Z.mul_sub_distr_r, <-!Z.mul_assoc.
      rewrite <-!Z.pow_add_r by lia. f_equal; f_equal; f_equal; lia. }
    pose proof (Z.pow_pos_nonneg 2 (ez + 1074)).
    set (ux := units (S754_finite false m1 e1)) in *.
    set (uy := units (S754_finite false m2 e2)) in *.
    assert (ux < uy ↔ 0 < d) as Hlt by nia.
    assert (ux ≠ uy ↔ d ≠ 0) as Hne by nia.
    destruct (binary_normalize_valid d ez) as (_ & Hs & Hnz).
    specialize (Hnz ltac:(lia)). rewrite Hnz. split.
    + by apply bool_decide_ext.
    + rewrite (bool_decide_ext _ _ Hlt). destruct (Z.ltb_spec d 0).
      * rewrite signed_neg by done. by rewrite bool_decide_eq_false_2 by lia.
      * destruct (decide (d = 0)) as [Hd0 | Hd0].
        { by rewrite Hd0. }
        rewrite signed_pos; [| done | by rewrite Hnz, bool_decide_eq_true_2].
        by rewrite bool_decide_eq_true_2 by lia.
Qed.

End DoubleSpec.

(** * Properties of [groupAutofetches] *)

Module QuotaExceededSpec.
Import QuotaExceeded.

Section sorting.
Context {A : Type} (gt : A → A → bool) (P : A → Prop).

Lemma insert_sorted_Permutation x l : insert_sorted gt x l ≡ₚ x :: l.
Proof.
  induction l as [|y l IH]; simpl; [done |].
  destruct (gt x y); [| done]. rewrite IH. apply Permutation_swap.
Qed.

Lemma stable_sort_Permutation l : stable_sort gt l ≡ₚ l.
Proof.
  induction l as [|x l IH]; simpl; [done |].
  by rewrite insert_sorted_Permutation, IH.
Qed.

(** The comparator need be consistent on the elements of the array only,
    those with [P]. *)
Lemma insert_sorted_StronglySorted x l :
  (∀ a b c, P a → P b → P c →
     not_after gt a b → not_after gt b c → not_after gt a c) →
  (∀ a b, P a → P b → gt a b = true → not_after gt b a) →
  P x → Forall P l →
  StronglySorted (not_after gt) l →
  StronglySorted (not_after gt) (insert_sorted gt x l).
Proof.
  intros Htrans Htotal Hx HP. induction 1 as [|y l Hl IH Hy]; simpl.
  - repeat constructor.
  - apply Forall_cons in HP as [Hpy HPl]. destruct (gt x y) eqn:Hxy.
    + constructor; [by apply IH |].
      rewrite insert_sorted_Permutation. constructor; [by apply Htotal | done].
    + constructor; [by constructor |]. constructor; [done |].
      rewrite Forall_forall in Hy, HPl. apply Forall_forall. intros z Hz.
      apply (Htrans x y z); auto.
Qed.

Lemma stable_sort_StronglySorted l :
  (∀ a b c, P a → P b → P c →
     not_after gt a b → not_after gt b c → not_after gt a c) →
  (∀ a b, P a → P b → gt a b = true → not_after gt b a) →
  Forall P l →
  StronglySorted (not_after gt) (stable_sort gt l).
Proof.
  intros Htrans Htotal. induction 1 as [|x l Hx HP IH]; simpl; [constructor |].
  apply insert_sorted_StronglySorted; [done | done | done | | done].
  by rewrite stable_sort_Permutation.
Qed.

Lemma StronglySorted_mono (R1 R2 : relation A) (l : list A) :
  (∀ x y, P x → P y → R1 x y → R2 x y) → Forall P l →
  StronglySorted R1 l → StronglySorted R2 l.
Proof.
  intros HR HP. induction 1 as [|x l _ IH Hx]; [constructor |].
  apply Forall_cons in HP as [Hpx HPl]. constructor; [by apply IH |].
  rewrite Forall_forall in Hx, HPl. apply Forall_forall. auto.
Qed.
End sorting.

Lemma filter_none {B} (P : B → Prop) `{!∀ x, Decision (P x)} (l : list B) :
  (∀ x, x ∈ l → ¬ P x) → filter P l = [].
Proof.
  induction l as [|x l IH]; intros Hl; [done |].
  rewrite filter_cons, decide_False by (apply Hl; left).
  apply IH. intros y Hy. apply Hl. by right.
Qed.

Lemma adjust_keys {B} k (f : B → B) (groups : list (string * B)) :
  (adjust k f groups).*1 = groups.*1.
Proof.
  unfold adjust. rewrite <-list_fmap_compose. apply list_fmap_ext.
  intros _ [k' x] _. simpl. by case_bool_decide.
Qed.

Lemma elem_of_adjust {B} k (f : B → B) (groups : list (string * B)) k' x' :
  (k', x') ∈ adjust k f groups ↔
  ∃ x, (k', x) ∈ groups ∧ x' = if bool_decide (k' = k) then f x else x.
Proof.
  unfold adjust. rewrite list_elem_of_fmap. split.
  - intros ([k0 x] & Heq & Hin). simpl in Heq.
    case_bool_decide as Hk; simplify_eq/=; exists x.
    + by rewrite bool_decide_eq_true_2.
    + by rewrite bool_decide_eq_false_2.
  - intros (x & Hin & ->). exists (k', x). split; [| done]. simpl.
    by case_bool_decide.
Qed.

Lemma Object_values_Permutation {B} (groups : list (string * B)) :
  Object_values groups ≡ₚ groups.*2.
Proof.
  unfold Object_values.
  by rewrite stable_sort_Permutation, filter_app_complement.
Qed.

Section grouping.
Context {collation : Collation}.
Implicit Types (g : Group) (a : Autofetch).

(** *** The comparator on groups with non-negative doubles *)

Lemma before_units g1 g2 :
  Double.nonneg (nFetchesPerDay g1) → Double.nonneg (nFetchesPerDay g2) →
  before g1 g2 ↔
  (Double.units (nFetchesPerDay g2) < Double.units (nFetchesPerDay g1) ∨
   (Double.units (nFetchesPerDay g1) = Double.units (nFetchesPerDay g2) ∧
    localeCompare (name (group_workflow g1)) (name (group_workflow g2)) ≤ 0))%Z.
Proof.
  intros H1 H2. unfold before.
  by rewrite DoubleSpec.ltb_units, DoubleSpec.eqb_units.
Qed.

Lemma compareGroups_before g1 g2 :
  Double.nonneg (nFetchesPerDay g1) → Double.nonneg (nFetchesPerDay g2) →
  not_after (λ x y, Double.ltb Double.zero (compareGroups x y)) g1 g2 ↔
  before g1 g2.
Proof.
  intros H1 H2. rewrite before_units by done. unfold not_after, compareGroups.
  destruct (DoubleSpec.sub_units _ _ H1 H2) as [Htruthy Hlt].
  cbv zeta. rewrite Htruthy.
  destruct (decide (Double.units (nFetchesPerDay g1)
                    = Double.units (nFetchesPerDay g2))) as [Heq | Hne].
  - rewrite (bool_decide_eq_false_2 (_ ≠ _)) by (intros Hne; by apply Hne).
    rewrite DoubleSpec.of_Z_pos, bool_decide_eq_false. lia.
  - rewrite (bool_decide_eq_true_2 (_ ≠ _)) by done.
    rewrite Hlt, bool_decide_eq_false. lia.
Qed.

Lemma before_trans g1 g2 g3 :
  Double.nonneg (nFetchesPerDay g1) → Double.nonneg (nFetchesPerDay g2) →
  Double.nonneg (nFetchesPerDay g3) →
  before g1 g2 → before g2 g3 → before g1 g3.
Proof.
  intros H1 H2 H3. rewrite !before_units by done.
  pose proof (localeCompare_trans (name (group_workflow g1))
                (name (group_workflow g2)) (name (group_workflow g3))).
  lia.
Qed.

Lemma before_total g1 g2 :
  Double.nonneg (nFetchesPerDay g1) → Double.nonneg (nFetchesPerDay g2) →
  ¬ before g1 g2 → before g2 g1.
Proof.
  intros H1 H2. rewrite !before_units by done.
  pose proof (localeCompare_antisym (name (group_workflow g1))
                (name (group_workflow g2))).
  lia.
Qed.

Lemma Array_sort_compareGroups_sorted (l : list Group) :
  Forall (λ g, Double.nonneg (nFetchesPerDay g)) l →
  StronglySorted before (Array_sort compareGroups l).
Proof.
  intros Hl. unfold Array_sort.
  eapply (StronglySorted_mono (λ g, Double.nonneg (nFetchesPerDay g))
            (not_after (λ x y, Double.ltb Double.zero (compareGroups x y)))).
  { intros g1 g2 H1 H2. by apply compareGroups_before. }
  { by rewrite stable_sort_Permutation. }
  apply (stable_sort_StronglySorted _ (λ g, Double.nonneg (nFetchesPerDay g)));
    [| | done].
  - intros g1 g2 g3 H1 H2 H3. rewrite !compareGroups_before by done.
    by apply before_trans.
  - intros g1 g2 H1 H2 Hgt. apply compareGroups_before; [done | done |].
    apply before_total; [done | done |].
    rewrite <-compareGroups_before by done. unfold not_after. by rewrite Hgt.
Qed.

(** *** The [groups] object *)

Lemma groupId_inj a1 a2 :
  groupId a1 = groupId a2 ↔ id (workflow a1) = id (workflow a2).
Proof.
  unfold groupId. split; [| by intros ->]. apply (inj pretty).
Qed.

Lemma sum_fetches_snoc l a :
  sum_fetches (l ++ [a]) = Double.add (sum_fetches l) (fetchesPerDay a).
Proof. unfold sum_fetches. by rewrite foldl_snoc. Qed.

(** The numbers of the groups are never negative, [-0] or [NaN]. *)
Lemma fetchesPerDay_nonneg a : Double.nonneg (fetchesPerDay a).
Proof.
  unfold fetchesPerDay.
  change (Double.of_Z 86400) with (S754_finite false 5937362789990400 (-36)).
  by apply DoubleSpec.div_nonneg, DoubleSpec.of_Z_nonneg.
Qed.

Lemma sum_fetches_nonneg l : Double.nonneg (sum_fetches l).
Proof.
  induction l as [|a l IH] using rev_ind; [done |].
  rewrite sum_fetches_snoc.
  by apply DoubleSpec.add_nonneg, fetchesPerDay_nonneg.
Qed.

Lemma foldl_addAutofetch_groups (input : list Autofetch) :
  let groups := foldl addAutofetch [] input in
  NoDup groups.*1 ∧
  (∀ k g, (k, g) ∈ groups →
     k = pretty (id (group_workflow g)) ∧
     autofetches g =
       filter (λ a, id (workflow a) = id (group_workflow g)) input ∧
     autofetches g ≠ [] ∧
     nFetchesPerDay g = sum_fetches (autofetches g)) ∧
  (∀ a, a ∈ input → groupId a ∈ groups.*1).
Proof.
  induction input as [|a input IH] using rev_ind; simpl.
  { split_and!; [constructor | by intros ?? ?%elem_of_nil | by intros ? ?%elem_of_nil]. }
  rewrite foldl_snoc. simpl in IH.
  set (groups := foldl addAutofetch [] input) in *.
  destruct IH as (Hdup & Hgroups & Hkeys).
  unfold addAutofetch.
  set (groups1 := if bool_decide (groupId a ∈ groups.*1) then groups
                  else groups ++ [(groupId a, mkGroup (workflow a) Double.zero [])]).
  (* the object once the group of [a] exists *)
  assert (NoDup groups1.*1 ∧
    (∀ k g, (k, g) ∈ groups1 →
       k = pretty (id (group_workflow g)) ∧
       autofetches g =
         filter (λ a', id (workflow a') = id (group_workflow g)) input ∧
       (k ≠ groupId a → autofetches g ≠ []) ∧
       nFetchesPerDay g = sum_fetches (autofetches g)) ∧
    groups.*1 ⊆ groups1.*1 ∧ groupId a ∈ groups1.*1)
    as (Hdup1 & Hgroups1 & Hsub1 & Ha1).
  { unfold groups1. case_bool_decide as Hin.
    - split_and!; [done | | done | done].
      intros k g Hkg. destruct (Hgroups k g Hkg) as (? & ? & ? & ?). done.
    - split_and!.
      + rewrite fmap_app. apply NoDup_app. split_and!; [done | | by apply NoDup_singleton].
        intros k Hk ->%list_elem_of_singleton. done.
      + intros k g [Hkg | Hkg%list_elem_of_singleton]%elem_of_app.
        * destruct (Hgroups k g Hkg) as (? & ? & ? & ?). done.
        * simplify_eq. simpl. split_and!; [done | | done | done].
          symmetry. apply filter_none. intros a' Ha' Hid.
          apply Hin. apply groupId_inj in Hid. rewrite <-Hid. by apply Hkeys.
      + rewrite fmap_app. intros k Hk. apply elem_of_app. by left.
      + rewrite fmap_app. apply elem_of_app. right. by apply list_elem_of_singleton. }
  rewrite adjust_keys. split_and!; [done | |].
  - intros k g' (g & Hkg & ->)%elem_of_adjust.
    destruct (Hgroups1 k g Hkg) as (Hk & Hautofetches & Hnonempty & Hsum).
    rewrite filter_app, filter_cons, filter_nil.
    case_bool_decide as Hka; simpl.
    + rewrite Hk in Hka. unfold groupId in Hka. apply (inj pretty) in Hka.
      rewrite decide_True by done.
      split_and!; [done | by rewrite Hautofetches | by destruct (autofetches g) |].
      by rewrite sum_fetches_snoc, Hsum.
    + rewrite decide_False; last first.
      { intros Hid. apply Hka. rewrite Hk. unfold groupId. by rewrite Hid. }
      rewrite app_nil_r. auto.
  - intros a' [Ha' | ->%list_elem_of_singleton]%elem_of_app; [| done].
    apply Hsub1. by apply Hkeys.
Qed.

Lemma groupAutofetches_Permutation input :
  groupAutofetches input ≡ₚ (foldl addAutofetch [] input).*2.
Proof.
  unfold groupAutofetches, Array_sort.
  by rewrite stable_sort_Permutation, Object_values_Permutation.
Qed.

(** C10.  [groupAutofetches] returns one group for each workflow id of the
    input: no two groups have the same id, and every autofetch has the group
    of its workflow.  A group holds the autofetches of the input with its
    workflow id, in input order and at least one, and its [nFetchesPerDay]
    is the sum of [86400 / fetchInterval] over them: the quotients are
    doubles, added one by one to 0 in that order.  The groups are sorted: a
    group comes before every group with fewer fetches per day, and before a
    group with as many only if its workflow name is not after the other
    one's. *)
Theorem groupAutofetches_groups (input : list Autofetch) :
  let result := groupAutofetches input in
  NoDup ((λ g, id (group_workflow g)) <$> result) ∧
  (∀ a, a ∈ input →
     ∃ g, g ∈ result ∧ id (group_workflow g) = id (workflow a)) ∧
  (∀ g, g ∈ result →
     autofetches g =
       filter (λ a, id (workflow a) = id (group_workflow g)) input ∧
     autofetches g ≠ [] ∧
     nFetchesPerDay g =
       foldl
         (λ sum a,
            Double.add sum
              (Double.div (Double.of_Z 86400)
                 (Double.of_Z (Z.pos (fetchInterval (wfModule a))))))
         Double.zero (autofetches g)) ∧
  StronglySorted before result.
Proof.
  intros result.
  pose proof (groupAutofetches_Permutation input) as Hperm. fold result in Hperm.
  destruct (foldl_addAutofetch_groups input) as (Hdup & Hgroups & Hkeys).
  set (groups := foldl addAutofetch [] input) in *.
  assert (∀ g, g ∈ result → ∃ k, (k, g) ∈ groups) as Hresult.
  { intros g. rewrite Hperm. intros ([k g'] & -> & Hin)%list_elem_of_fmap.
    by exists k. }
  split_and!.
  - rewrite Hperm. apply (NoDup_fmap_1 pretty).
    rewrite <-!list_fmap_compose.
    replace ((pretty ∘ (λ g, id (group_workflow g)) ∘ snd) <$> groups)
      with groups.*1; [done |].
    apply list_fmap_ext. intros i [k g] Hi. simpl.
    apply list_elem_of_lookup_2 in Hi. by destruct (Hgroups k g Hi).
  - intros a Ha. apply Hkeys in Ha as ([k g] & Hk & Hin)%list_elem_of_fmap.
    simpl in Hk. exists g. split.
    + rewrite Hperm. apply list_elem_of_fmap. by exists (k, g).
    + destruct (Hgroups k g Hin) as (Hkg & _). rewrite Hkg in Hk.
      unfold groupId in Hk. by apply (inj pretty) in Hk.
  - intros g [k Hin]%Hresult. by destruct (Hgroups k g Hin) as (_ & ? & ? & ?).
  - apply Array_sort_compareGroups_sorted.
    rewrite Object_values_Permutation. apply Forall_forall.
    intros g ([k g'] & -> & Hin)%list_elem_of_fmap. simpl.
    destruct (Hgroups k g' Hin) as (_ & _ & _ & ->). apply sum_fetches_nonneg.
Qed.

End grouping.

(** A run of [groupAutofetches], with names compared by character code:
    workflow 7 has 24 + 2 fetches per day, workflows 3 and 9 have one each
    and are ordered by name.  Each group is shown as its workflow id, its
    number of fetches per day and the ids of its steps. *)
Example groupAutofetches_run :
  let autofetch w n s i :=
    mkAutofetch (mkWorkflow w n) (mkTab "Tab 1") (mkWfModule s 0 i) in
  let input :=
    [autofetch 7%Z "Sales" 71%Z 3600%positive;
     autofetch 3%Z "Budget" 31%Z 86400%positive;
     autofetch 7%Z "Sales" 72%Z 43200%positive;
     autofetch 9%Z "Audit" 91%Z 86400%positive] in
  (λ g, (id (group_workflow g), nFetchesPerDay g,
         (λ a, wfModule_id (wfModule a)) <$> autofetches g))
    <$> groupAutofetches (collation := code_collation) input
  = [(7, Double.of_Z 26, [71; 72]); (9, Double.of_Z 1, [91]);
     (3, Double.of_Z 1, [31])]%Z.
Proof. vm_compute. reflexivity. Qed.

(** The sums are sums of doubles.  Seven steps fetched once a week make
    [0.9999999999999998] fetches per day, which is [(2^53 - 2) / 2^53], and
    not 1: their workflow comes after one with one step fetched once a day,
    whatever the names. *)
Example groupAutofetches_rounding :
  let autofetch w n s i :=
    mkAutofetch (mkWorkflow w n) (mkTab "Tab 1") (mkWfModule s 0 i) in
  let input :=
    ((λ s, autofetch 1%Z "Alpha" s 604800%positive) <$> [11; 12; 13; 14; 15; 16; 17]%Z)
    ++ [autofetch 2%Z "Beta" 21%Z 86400%positive] in
  (λ g, (name (group_workflow g), nFetchesPerDay g))
    <$> groupAutofetches (collation := code_collation) input
  = [("Beta", Double.of_Z 1);
     ("Alpha", S754_finite false 9007199254740990 (-53))].
Proof. vm_compute. reflexivity. Qed.

End QuotaExceededSpec.

(** * The JSON text of an edit log reads back *)

Module EditJSONSpec.
Import Refine EditJSON.

Lemma strip_app p k : strip p (p +:+ k) = Some k.
Proof.
  induction p as [|c p IH]; simpl; [done |].
  by rewrite bool_decide_eq_true_2.
Qed.

Lemma read_chars_write_char c k :
  read_chars (write_char c k) = cons_char c <$> read_chars k.
Proof.
  destruct c as [[] [] [] [] [] [] [] []]; reflexivity.
Qed.

Lemma read_chars_write_chars s k :
  read_chars (write_chars s (String dquote k)) = Some (s, k).
Proof.
  induction s as [|c s IH]; simpl; [done |].
  by rewrite read_chars_write_char, IH.
Qed.

Lemma digit_value_pretty_N_char d :
  (d < 10)%N → digit_value (pretty_N_char d) = Some (Z.of_N d).
Proof.
  intros Hd.
  assert (d = 0 ∨ d = 1 ∨ d = 2 ∨ d = 3 ∨ d = 4 ∨ d = 5 ∨ d = 6 ∨ d = 7
          ∨ d = 8 ∨ d = 9)%N as Hcases by lia.
  repeat destruct Hcases as [-> | Hcases]; try subst d; reflexivity.
Qed.

Lemma read_digits_not_digit acc k :
  starts_with_digit k = false → read_digits acc k = (acc, k).
Proof.
  destruct k as [|c k]; simpl; [done |].
  rewrite bool_decide_eq_false. by destruct (digit_value c) as [d|]; [intros []|].
Qed.

Lemma read_digits_pretty_N_go x k :
  ∃ m, ∀ acc,
    read_digits acc (pretty_N_go x k) = read_digits (acc * m + Z.of_N x) k.
Proof.
  revert k. induction (N.lt_wf_0 x) as [x _ IH]; intros k.
  destruct (decide (x = 0)%N) as [-> | Hx].
  - exists 1%Z. intros acc. rewrite pretty_N_go_0. f_equal. lia.
  - rewrite pretty_N_go_step by lia.
    destruct (IH (x `div` 10)%N ltac:(apply N.div_lt; lia)
                 (String (pretty_N_char (x `mod` 10)) k)) as [m Hm].
    exists (10 * m)%Z. intros acc. rewrite Hm. simpl.
    rewrite digit_value_pretty_N_char by (apply N.mod_lt; lia).
    f_equal. pose proof (N.div_mod x 10 ltac:(lia)). lia.
Qed.

Lemma pretty_N_go_head x k :
  (0 < x)%N →
  ∃ d rest, (d < 10)%N ∧ pretty_N_go x k = String (pretty_N_char d) rest.
Proof.
  revert k. induction (N.lt_wf_0 x) as [x _ IH]; intros k Hx.
  rewrite pretty_N_go_step by done.
  destruct (decide (x `div` 10 = 0)%N) as [Hdiv | Hdiv].
  - rewrite Hdiv, pretty_N_go_0. eexists _, _. split; [| done].
    apply N.mod_lt. lia.
  - apply IH; [apply N.div_lt; lia | by apply N.neq_0_lt_0].
Qed.

Lemma read_Z_pretty_N_go p k :
  starts_with_digit k = false →
  read_Z (pretty_N_go (Npos p) k) = Some (Zpos p, k) ∧
  starts_with_digit (pretty_N_go (Npos p) k) = true ∧
  read_digits 0 (pretty_N_go (Npos p) k) = (Zpos p, k).
Proof.
  intros Hk.
  assert (read_digits 0 (pretty_N_go (Npos p) k) = (Zpos p, k)) as Hread.
  { destruct (read_digits_pretty_N_go (Npos p) k) as [m Hm].
    rewrite Hm, read_digits_not_digit by done. f_equal. }
  destruct (pretty_N_go_head (Npos p) k) as (d & rest & Hd & Hhead); [lia |].
  rewrite Hhead in *.
  assert (d = 0 ∨ d = 1 ∨ d = 2 ∨ d = 3 ∨ d = 4 ∨ d = 5 ∨ d = 6 ∨ d = 7
          ∨ d = 8 ∨ d = 9)%N as Hcases by lia.
  split_and!; [| | done].
  - unfold read_Z. rewrite <-Hread.
    repeat destruct Hcases as [-> | Hcases]; try subst d; reflexivity.
  - repeat destruct Hcases as [-> | Hcases]; try subst d; reflexivity.
Qed.

Lemma read_Z_write_Z z k :
  starts_with_digit k = false → read_Z (write_Z z k) = Some (z, k).
Proof.
  intros Hk. destruct z as [|p|p]; simpl.
  - by rewrite read_digits_not_digit.
  - by apply read_Z_pretty_N_go.
  - destruct (read_Z_pretty_N_go p k Hk) as (_ & -> & ->). done.
Qed.

Lemma read_val_number z k :
  starts_with_digit k = false →
  read_val (write_Z z k) = Some (VNum (Int z), k).
Proof.
  intros Hk.
  assert (read_val (write_Z z k)
          = prod_map (λ z, VNum (Int z)) id <$> read_Z (write_Z z k)) as ->;
    [| by rewrite read_Z_write_Z].
  destruct z as [|p|p]; [done | | done]. simpl.
  destruct (pretty_N_go_head (Npos p) k) as (d & rest & Hd & ->); [lia |].
  assert (d = 0 ∨ d = 1 ∨ d = 2 ∨ d = 3 ∨ d = 4 ∨ d = 5 ∨ d = 6 ∨ d = 7
          ∨ d = 8 ∨ d = 9)%N as Hcases by lia.
  repeat destruct Hcases as [-> | Hcases]; try subst d; reflexivity.
Qed.

Lemma read_val_write_val v k text :
  write_val v k = Some text → json_val v → starts_with_digit k = false →
  read_val text = Some (v, k).
Proof.
  intros Htext Hv Hk. destruct v as [| | [] | [|z] | s]; simplify_eq/=.
  - done.
  - done.
  - done.
  - by destruct Hv.
  - by apply read_val_number.
  - by rewrite read_chars_write_chars.
Qed.

Lemma string_app_cons c (s k : string) : String c s +:+ k = String c (s +:+ k).
Proof. reflexivity. Qed.

Lemma string_app_assoc (s1 s2 s3 : string) :
  (s1 +:+ s2) +:+ s3 = s1 +:+ (s2 +:+ s3).
Proof.
  induction s1 as [|c s1 IH]; [done |]. by rewrite !string_app_cons, IH.
Qed.

Lemma write_key_app name text :
  String "," (write_key name text)
  = String "," (write_key name EmptyString) +:+ text.
Proof. unfold write_key. by rewrite !string_app_cons, string_app_assoc. Qed.

Lemma read_field_write_field name v k :
  json_val v → starts_with_digit k = false →
  strip (String "," (write_key name EmptyString)) k = None →
  read_field name (write_field name v k) = Some (v, k).
Proof.
  intros Hv Hk Hnone. unfold read_field, write_field.
  destruct (write_val v k) as [text|] eqn:Htext; cbv beta iota.
  - rewrite (write_key_app name text), strip_app.
    by eapply read_val_write_val.
  - rewrite Hnone. by destruct v as [| | | [] |].
Qed.

(** The text that follows a field does not look like another field. *)
Lemma strip_field_fromVal v k :
  strip (String "," (write_key "fromVal" EmptyString))
        (write_field "toVal" v (String "," (write_key "timestamp" k))) = None.
Proof. unfold write_field. by destruct (write_val v _). Qed.

Lemma read_edit_write_edit e k :
  json_edit e → read_edit (write_edit e k) = Some (e, k).
Proof.
  intros [Hfrom Hto]. destruct e as [col from to ts]. simpl in *.
  unfold read_edit, write_edit. simpl.
  rewrite read_chars_write_chars. simpl.
  rewrite read_field_write_field; [simpl | done | |].
  - rewrite read_field_write_field by done. simpl.
    by rewrite read_Z_write_Z.
  - unfold write_field. by destruct (write_val to _).
  - apply strip_field_fromVal.
Qed.

(** The writers only add text in front of what follows, so the length of
    a text bounds the number of records in it. *)
Lemma length_app_ge (s k : string) :
  (String.length k ≤ String.length (s +:+ k))%nat.
Proof.
  induction s as [|c s IH]; [done |].
  rewrite string_app_cons. cbn [String.length]. lia.
Qed.

Lemma length_pretty_N_go x k :
  (String.length k ≤ String.length (pretty_N_go x k))%nat.
Proof.
  revert k. induction (N.lt_wf_0 x) as [x _ IH]; intros k.
  destruct (decide (x = 0)%N) as [-> | Hx]; [by rewrite pretty_N_go_0 |].
  rewrite pretty_N_go_step by lia.
  etrans; [| apply IH, N.div_lt; lia]. simpl. lia.
Qed.

Lemma length_write_Z z k :
  (String.length k ≤ String.length (write_Z z k))%nat.
Proof.
  destruct z as [|p|p]; simpl; [lia | apply length_pretty_N_go |].
  pose proof (length_pretty_N_go (Npos p) k). lia.
Qed.

Lemma length_write_char c k :
  (String.length k ≤ String.length (write_char c k))%nat.
Proof.
  unfold write_char. repeat case_bool_decide; cbn [String.length]; lia.
Qed.

Lemma length_write_chars s k :
  (String.length k ≤ String.length (write_chars s k))%nat.
Proof.
  induction s as [|c s IH]; simpl; [done |]. etrans; [apply IH |].
  apply length_write_char.
Qed.

Lemma length_write_val v k text :
  write_val v k = Some text → (String.length k ≤ String.length text)%nat.
Proof.
  destruct v as [| | b | [|z] | s]; intros [= <-].
  - apply length_app_ge.
  - apply length_app_ge.
  - apply length_app_ge.
  - apply length_write_Z.
  - unfold write_string. cbn [String.length].
    pose proof (length_write_chars s (String dquote k)) as Hs.
    cbn [String.length] in Hs. lia.
Qed.

Lemma length_write_key name k :
  (String.length k ≤ String.length (write_key name k))%nat.
Proof.
  unfold write_key. cbn [String.length].
  pose proof (length_app_ge name (String dquote (String ":" k))) as Hn.
  cbn [String.length] in Hn. lia.
Qed.

Lemma length_write_field name v k :
  (String.length k ≤ String.length (write_field name v k))%nat.
Proof.
  unfold write_field. destruct (write_val v k) as [text|] eqn:Htext; [| done].
  cbn [String.length]. pose proof (length_write_key name text).
  pose proof (length_write_val v k text Htext). lia.
Qed.

Lemma length_write_string s k :
  (String.length k ≤ String.length (write_string s k))%nat.
Proof.
  unfold write_string. cbn [String.length].
  pose proof (length_write_chars s (String dquote k)) as Hs.
  cbn [String.length] in Hs. lia.
Qed.

Lemma length_write_edit e k :
  (String.length k < String.length (write_edit e k))%nat.
Proof.
  unfold write_edit.
  set (k5 := String "}" k).
  set (k4 := write_Z (timestamp e) k5).
  set (k3 := String "," (write_key "timestamp" k4)).
  set (k2 := write_field "toVal" (toVal e) k3).
  set (k1 := write_field "fromVal" (fromVal e) k2).
  set (k0 := write_string (column e) k1).
  pose proof (length_write_Z (timestamp e) k5).
  pose proof (length_write_key "timestamp" k4).
  pose proof (length_write_field "toVal" (toVal e) k3).
  pose proof (length_write_field "fromVal" (fromVal e) k2).
  pose proof (length_write_string (column e) k1).
  pose proof (length_write_key "column" k0).
  subst k0 k1 k2 k3 k4 k5. cbn [String.length] in *. lia.
Qed.

Lemma length_write_more log k :
  (length log < String.length (write_more log k))%nat.
Proof.
  induction log as [|e log IH]; cbn [write_more length String.length]; [lia |].
  pose proof (length_write_edit e (write_more log k)). lia.
Qed.

Lemma read_more_write_more log fuel k :
  (length log < fuel)%nat → Forall json_edit log →
  read_more fuel (write_more log k) = Some (log, k).
Proof.
  intros Hfuel Hlog. revert fuel Hfuel.
  induction Hlog as [|e log He _ IH]; intros [|fuel] Hfuel; simpl in *;
    try lia; [done |].
  rewrite read_edit_write_edit by done. simpl.
  by rewrite IH by lia.
Qed.

Lemma read_edits_write_edits log :
  Forall json_edit log → read_edits (write_edits log) = Some log.
Proof.
  destruct 1 as [|e log He Hlog]; [done |].
  unfold write_edits, read_edits.
  rewrite bool_decide_eq_true_2 by done.
  assert (strip "]" (write_edit e (write_more log EmptyString)) = None) as ->
    by done.
  rewrite read_edit_write_edit by done. simpl.
  rewrite read_more_write_more by (done || apply length_write_more).
  done.
Qed.

(** The text codec satisfies what the component relies on. *)
Lemma text_json_roundtrip : JSON_roundtrip (json := text_json).
Proof. intros log Hlog. by apply read_edits_write_edits. Qed.

End EditJSONSpec.

(** * The handlers of the Refine component *)

Module HandlersSpec.
Import Refine.

(** C6.  Let [JSON.parse] give back what [JSON.stringify] wrote, and let the
    values of the log and of the event be values JSON can write.  A grid
    update whose cell key is not count and whose old and new cell values
    differ, and every value change from an edit row, call [saveEdits] with a
    text that parses to the edit log of the component followed by the one
    record [{column, fromVal, toVal, timestamp}] of the event. *)
Theorem handlers_append_edit {runtime : Runtime} {json : JSON}
    (state : State) (now : Z) :
  JSON_roundtrip → Forall json_edit (edits state) →
  (∀ data,
     let fromVal := get (fromRowData data) (cellKey data) in
     let toVal := get (updated data) (cellKey data) in
     cellKey data ≠ "count" → loose_eq fromVal toVal = false →
     json_val fromVal → json_val toVal →
     ∃ text,
       handleGridRowsUpdated state now data = Some text ∧
       JSON_parse text =
         Some (edits state ++ [mkEdit (cellKey data) fromVal toVal now])) ∧
  (∀ selectedColumn changeData,
     json_val (change_fromVal changeData) →
     json_val (change_toVal changeData) →
     ∃ text,
       handleValueChange selectedColumn state now changeData = Some text ∧
       JSON_parse text =
         Some (edits state ++
               [mkEdit selectedColumn (change_fromVal changeData)
                  (change_toVal changeData) now])).
Proof.
  intros Hjson Hlog. split.
  - intros data fromVal toVal Hkey Hne Hfrom Hto.
    unfold handleGridRowsUpdated.
    rewrite bool_decide_eq_false_2 by done. fold fromVal toVal. rewrite Hne.
    eexists. split; [done |]. apply Hjson.
    apply Forall_app. split; [done |]. by repeat constructor.
  - intros selectedColumn changeData Hfrom Hto.
    unfold handleValueChange. eexists. split; [done |]. apply Hjson.
    apply Forall_app. split; [done |]. by repeat constructor.
Qed.

(** C6 with the JSON text of [EditJSON], on a log of one edit. *)
Lemma handlers_append_edit_witness :
  let state :=
    mkState true [mkRow "city" (VStr "NY") 3] 1 []
      [mkEdit "city" (VStr "LA") (VStr "Los Angeles") 1700000000000] in
  let data :=
    mkGridUpdate "city" (mkRow "city" (VStr "NY") 3)
      {["city" := VStr "New York"]} in
  (JSON_roundtrip (json := EditJSON.text_json) ∧
   Forall json_edit (edits state)) ∧
  (∃ text,
     handleGridRowsUpdated (runtime := decimal_runtime)
       (json := EditJSON.text_json) state 1700000000001 data = Some text ∧
     JSON_parse (JSON := EditJSON.text_json) text =
       Some [mkEdit "city" (VStr "LA") (VStr "Los Angeles") 1700000000000;
             mkEdit "city" (VStr "NY") (VStr "New York") 1700000000001]) ∧
  (∃ text,
     handleValueChange (json := EditJSON.text_json) "city" state 1700000000001
       (mkValueChange (VStr "NY") (VStr "New York")) = Some text ∧
     JSON_parse (JSON := EditJSON.text_json) text =
       Some [mkEdit "city" (VStr "LA") (VStr "Los Angeles") 1700000000000;
             mkEdit "city" (VStr "NY") (VStr "New York") 1700000000001]).
Proof.
  intros state data.
  assert (Forall json_edit (edits state)) as Hlog.
  { repeat constructor; discriminate. }
  split; [split; [apply EditJSONSpec.text_json_roundtrip | done] |].
  destruct (handlers_append_edit (runtime := decimal_runtime)
              (json := EditJSON.text_json) state 1700000000001
              EditJSONSpec.text_json_roundtrip Hlog) as [Hgrid Hchange].
  split.
  - apply (Hgrid data); [discriminate | reflexivity | discriminate..].
  - apply (Hchange "city" (mkValueChange (VStr "NY") (VStr "New York")));
      discriminate.
Defined.

End HandlersSpec.

(** * More about [applySingleEdit] and the replay *)

Module RefineMore.
Import Refine RefineSpec.

Section more.
Context {runtime : Runtime}.
Implicit Types (hist : list (gmap string val)) (r t : gmap string val).
Implicit Types (e : Edit) (col : string) (v : val).

Lemma loose_eq_refl v : v ≠ VNum NaN → loose_eq v v = true.
Proof.
  destruct v as [| | b | [|z] | s]; simpl; intros Hv; try done;
    by apply bool_decide_eq_true.
Qed.

(** The two shapes of a result: a row in front of the input without the
    from-row (or without its last row, when there is no from-row), or
    without one more row. *)
Lemma applySingleEdit_shape hist e :
  ∃ x i,
    applySingleEdit hist e = x :: delete i hist ∨
    ∃ j, applySingleEdit hist e = x :: delete j (delete i hist) ∧
         is_Some (delete i hist !! j).
Proof.
  unfold applySingleEdit.
  set (fromIdx := findIndex (column e) (fromVal e) hist).
  assert (∃ i, splice1 fromIdx hist = delete i hist) as [i ->].
  { destruct fromIdx; simpl; eauto. }
  destruct (findIndex _ _ (delete i hist)) as [j|] eqn:Hj.
  - eexists _, i. right. exists j. split; [done |].
    apply findIndex_Some in Hj as (t & Hj & _). eauto.
  - eexists _, i. by left.
Qed.

Lemma length_delete_ge {A} (l : list A) i :
  (length l - 1 ≤ length (delete i l))%nat.
Proof.
  revert i. induction l as [|x l IH]; intros [|i]; simpl; try lia.
  specialize (IH i). lia.
Qed.

(** X1.  Whatever the histogram and the edit, the result is one row followed
    by rows of the input: they are in the order they had, none is changed,
    and at most two rows of the input are missing.  The result is never
    empty. *)
Theorem applySingleEdit_keeps_other_rows hist e :
  ∃ x rest,
    applySingleEdit hist e = x :: rest ∧
    rest `sublist_of` hist ∧
    (length hist - 2 ≤ length rest ≤ length hist)%nat.
Proof.
  destruct (applySingleEdit_shape hist e) as (x & i & [-> | (j & -> & Hj)]).
  - exists x, (delete i hist). split_and!; [done | apply sublist_delete | |].
    + pose proof (length_delete_ge hist i). lia.
    + apply sublist_length, sublist_delete.
  - exists x, (delete j (delete i hist)). split_and!; [done | | |].
    + etrans; apply sublist_delete.
    + pose proof (length_delete_ge hist i).
      pose proof (length_delete_ge (delete i hist) j). lia.
    + apply sublist_length. etrans; apply sublist_delete.
Qed.

(** X2.  After an edit of a column other than count, the first row of the
    result has the value [toVal], whether or not a row had the value
    [fromVal]: looking [toVal] up in the result finds row 0. *)
Theorem applySingleEdit_toVal_first hist e :
  column e ≠ "count" → toVal e ≠ VNum NaN →
  findIndex (column e) (toVal e) (applySingleEdit hist e) = Some 0%nat.
Proof.
  intros Hcol Hto.
  assert (∀ x rest, has_value (column e) (toVal e) x →
            findIndex (column e) (toVal e) (x :: rest) = Some 0%nat) as Hhead.
  { intros x rest Hx. simpl. by rewrite Hx. }
  unfold applySingleEdit.
  destruct (findIndex _ _ (splice1 _ hist)) as [j|] eqn:Hj.
  - apply findIndex_Some in Hj as (t & Hj & Ht & _).
    apply Hhead. simpl. rewrite Hj. simpl.
    unfold has_value. by rewrite get_insert_ne.
  - apply Hhead. unfold has_value.
    rewrite get_insert_ne by done. unfold get. rewrite lookup_insert_eq.
    by apply loose_eq_refl.
Qed.

(** X3.  An edit removes the value it renames.  If exactly one row has the
    value [fromVal], [toVal] does not equal [fromVal] and the column is not
    count, no row of the result has the value [fromVal]: applying the same
    edit once more finds no from-row. *)
Theorem applySingleEdit_removes_fromVal hist e i r :
  column e ≠ "count" →
  first_match (column e) (fromVal e) hist i r →
  (∀ j t, j ≠ i → hist !! j = Some t → ¬ has_value (column e) (fromVal e) t) →
  loose_eq (toVal e) (fromVal e) = false →
  Forall (λ x, ¬ has_value (column e) (fromVal e) x) (applySingleEdit hist e) ∧
  findIndex (column e) (fromVal e) (applySingleEdit hist e) = None.
Proof.
  intros Hcol Hfrom Hunique Hne.
  assert (Forall (λ x, ¬ has_value (column e) (fromVal e) x) (delete i hist))
    as Hrest.
  { apply Forall_lookup. intros j' t Hj'.
    apply lookup_delete_inv in Hj' as (j & ? & ?). eauto. }
  assert (Forall (λ x, ¬ has_value (column e) (fromVal e) x)
            (applySingleEdit hist e)) as Hall; [| by rewrite findIndex_None].
  rewrite (applySingleEdit_found _ _ _ _ Hfrom).
  destruct (findIndex _ _ (delete i hist)) as [k|] eqn:Hk.
  - apply findIndex_Some in Hk as (t & Hk & _). rewrite Hk. simpl.
    rewrite Forall_lookup in Hrest. constructor.
    + unfold has_value. rewrite get_insert_ne by done. by apply (Hrest k).
    + apply Forall_lookup. intros j' x Hj'.
      apply lookup_delete_inv in Hj' as (j & _ & Hj). by apply (Hrest j).
  - constructor; [| done]. unfold has_value.
    rewrite get_insert_ne, get_singleton_eq by done. by rewrite Hne.
Qed.

Lemma count_sum_NaN hist :
  numeric_counts hist →
  foldl (λ sum row, js_add sum (get row "count")) (VNum NaN) hist = VNum NaN.
Proof.
  induction 1 as [|r hist Hr _ IH]; simpl; [done |].
  by rewrite (numeric_count_of r Hr).
Qed.

(** X4.  An edit whose [fromVal] no row has spoils the counts.  On a
    histogram with integer counts the row put in front has no count or the
    count [NaN], and the sum of the counts of the result is [NaN]. *)
Theorem applySingleEdit_absent_count_sum hist e :
  numeric_counts hist →
  Forall (λ r, ¬ has_value (column e) (fromVal e) r) hist →
  ∃ x rest,
    applySingleEdit hist e = x :: rest ∧
    (get x "count" = VUndef ∨ get x "count" = VNum NaN) ∧
    count_sum (applySingleEdit hist e) = VNum NaN.
Proof.
  intros Hnum Hnone. rewrite (applySingleEdit_not_found _ _ Hnone).
  set (rest := delete (length hist - 1)%nat hist).
  assert (numeric_counts rest) as Hrest by by apply numeric_counts_delete.
  cbv zeta. destruct (findIndex _ _ rest) as [j|] eqn:Hj.
  - apply findIndex_Some in Hj as (t & Hj & _). rewrite Hj. simpl.
    destruct (numeric_counts_lookup _ _ _ Hrest Hj) as [c Hc].
    assert (get t "count" = VNum (Int c)) as -> by (unfold get; by rewrite Hc).
    eexists _, _. split; [done |]. rewrite get_insert_eq. simpl.
    split; [by right |].
    unfold count_sum. simpl. rewrite get_insert_eq. simpl.
    by apply count_sum_NaN, numeric_counts_delete.
  - eexists _, _. split; [done |]. rewrite get_insert_eq.
    split; [by left |].
    unfold count_sum. simpl. rewrite get_insert_eq. simpl.
    by apply count_sum_NaN.
Qed.

(** X5.  An edit from a value to itself moves the row to the front.  If
    row [i] is [{[col]: v, count: c}], no other row has the value [v] and
    the column is not count, the result is that row followed by the other
    rows in their order. *)
Theorem applySingleEdit_same_value hist col v c i ts :
  col ≠ "count" → v ≠ VNum NaN →
  hist !! i = Some (<["count" := c]> {[col := v]}) →
  (∀ j t, j ≠ i → hist !! j = Some t → ¬ has_value col v t) →
  applySingleEdit hist (mkEdit col v v ts)
  = <["count" := c]> {[col := v]} :: delete i hist.
Proof.
  intros Hcol Hv Hi Hunique.
  set (r := <["count" := c]> ({[col := v]} : gmap string val)) in *.
  assert (has_value col v r) as Hr.
  { unfold has_value, r. rewrite get_insert_ne, get_singleton_eq by done.
    by apply loose_eq_refl. }
  assert (first_match col v hist i r) as Hfrom.
  { split_and!; [done.. |]. intros k r' Hk Hk'. apply (Hunique k r'); [lia | done]. }
  rewrite (applySingleEdit_found _ (mkEdit col v v ts) i r Hfrom). simpl.
  assert (findIndex col v (delete i hist) = None) as ->.
  { apply findIndex_None, Forall_lookup. intros j' t Hj'.
    apply lookup_delete_inv in Hj' as (j & ? & ?). eauto. }
  by unfold r; rewrite get_insert_eq.
Qed.

(** *** The replay *)

Lemma replayEdits_app selectedColumn log1 log2 hist :
  replayEdits selectedColumn (log1 ++ log2) hist
  = replayEdits selectedColumn log2 (replayEdits selectedColumn log1 hist).
Proof.
  revert hist. induction log1 as [|e log1 IH]; intros hist; simpl; [done |].
  by rewrite IH.
Qed.

(** X6.  One more edit at the end of the log is one more step of the replay.
    For the same fetched histogram, the histogram stored with the log
    [log ++ [e]] is the one stored with [log] with [e] applied to it when [e]
    is an edit of the selected column, and the same histogram when it is
    not. *)
Theorem loadHistogram_one_more_edit selectedColumn state state' histogram e :
  edits state' = edits state ++ [e] →
  histogramData (loadHistogram selectedColumn state' histogram) =
    if bool_decide (column e = selectedColumn)
    then applySingleEdit
           (histogramData (loadHistogram selectedColumn state histogram)) e
    else histogramData (loadHistogram selectedColumn state histogram).
Proof. intros Hlog. simpl. by rewrite Hlog, replayEdits_app. Qed.

(** X7.  A log without edits of the selected column, the empty log among
    them, changes nothing: the histogram is stored as it was fetched. *)
Theorem loadHistogram_no_edits selectedColumn state histogram :
  Forall (λ e, column e ≠ selectedColumn) (edits state) →
  histogramData (loadHistogram selectedColumn state histogram) = rows histogram ∧
  histogramNumRows (loadHistogram selectedColumn state histogram)
  = length (rows histogram).
Proof.
  intros Hlog. simpl.
  assert (replayEdits selectedColumn (edits state) (rows histogram)
          = rows histogram) as ->; [| done].
  generalize (rows histogram) as hist.
  induction Hlog as [|e log He _ IH]; intros hist; simpl; [done |].
  by rewrite bool_decide_eq_false_2.
Qed.

Lemma applySingleEdit_counts hist e :
  numeric_counts hist →
  Exists (λ r, loose_eq (get r (column e)) (fromVal e) = true) hist →
  numeric_counts (applySingleEdit hist e) ∧
  total_count (applySingleEdit hist e) = total_count hist.
Proof.
  intros Hnum (t & (j & Hj)%list_elem_of_lookup_1 & Ht)%Exists_exists.
  destruct (first_match_exists _ _ _ _ _ Hj Ht) as (i & r & Hfrom & _).
  pose proof Hfrom as (Hi & _).
  pose proof (numeric_counts_lookup _ _ _ Hnum Hi) as Hr.
  rewrite (applySingleEdit_found _ _ _ _ Hfrom).
  rewrite (total_count_delete hist i r Hi), (numeric_count_of r Hr).
  destruct (findIndex _ _ (delete i hist)) as [k|] eqn:Hk.
  - apply findIndex_Some in Hk as (t' & Hk & _). rewrite Hk. simpl.
    pose proof (numeric_counts_lookup _ _ _
                  (numeric_counts_delete _ i Hnum) Hk) as Ht'.
    rewrite (numeric_count_of t' Ht'). simpl. split.
    + constructor; [| by do 2 apply numeric_counts_delete].
      eexists. by rewrite lookup_insert_eq.
    + rewrite (total_count_delete (delete i hist) k t' Hk).
      unfold count_of at 1. rewrite lookup_insert_eq. lia.
  - simpl. split.
    + constructor; [| by apply numeric_counts_delete].
      eexists. by rewrite lookup_insert_eq.
    + unfold count_of at 1. by rewrite lookup_insert_eq.
Qed.

(** X8.  The replay conserves the total count.  If the fetched counts are
    integers and every edit the replay applies finds a row with its
    [fromVal], the sum of the counts of the stored histogram is the sum of
    the fetched counts, and the stored counts are integers. *)
Theorem loadHistogram_count_sum selectedColumn state histogram :
  numeric_counts (rows histogram) →
  edits_found selectedColumn (edits state) (rows histogram) →
  count_sum (histogramData (loadHistogram selectedColumn state histogram))
  = count_sum (rows histogram) ∧
  numeric_counts (histogramData (loadHistogram selectedColumn state histogram)).
Proof.
  simpl. generalize (rows histogram) as hist.
  induction (edits state) as [|e log IH]; intros hist Hnum Hfound; simpl in *;
    [done |].
  case_bool_decide as He; [| by apply IH].
  destruct Hfound as [Hrow Hfound].
  destruct (applySingleEdit_counts hist e Hnum Hrow) as [Hnum' Htot].
  destruct (IH _ Hnum' Hfound) as [-> Hnum'']. split; [| done].
  by rewrite !count_sum_total, Htot.
Qed.

Lemma replayEdits_distinct_values eq selectedColumn log hist :
  (∀ x y, eq x y = eq y x) →
  (∀ x y, eq x y = true → loose_eq x y = true) →
  selectedColumn ≠ "count" →
  edits_found selectedColumn log hist →
  distinct_values eq selectedColumn hist →
  distinct_values eq selectedColumn (replayEdits selectedColumn log hist).
Proof.
  intros Hsym Hloose Hcol. revert hist.
  induction log as [|e log IH]; intros hist Hfound Hd; simpl in *; [done |].
  case_bool_decide as He; [| by apply IH].
  destruct Hfound as [Hrow Hfound]. apply IH; [done |].
  apply Exists_exists in Hrow as (t & (j & Hj)%list_elem_of_lookup_1 & Ht).
  destruct (first_match_exists _ _ _ _ _ Hj Ht) as (i & r & Hfrom & _).
  rewrite <-He in *. by apply (applySingleEdit_distinct_values eq hist e i r).
Qed.

(** X18.  The replay keeps the values of the selected column distinct.  If
    the selected column is not count, no two fetched rows have the same
    value and every edit the replay applies finds a row with its [fromVal],
    no two rows of the stored histogram have the same value; this holds for
    values compared with [==] and for values compared with [===]. *)
Theorem loadHistogram_preserves_distinct selectedColumn state histogram :
  selectedColumn ≠ "count" →
  edits_found selectedColumn (edits state) (rows histogram) →
  (distinct_values loose_eq selectedColumn (rows histogram) →
   distinct_values loose_eq selectedColumn
     (histogramData (loadHistogram selectedColumn state histogram))) ∧
  (distinct_values strict_eq selectedColumn (rows histogram) →
   distinct_values strict_eq selectedColumn
     (histogramData (loadHistogram selectedColumn state histogram))).
Proof.
  intros Hcol Hfound. simpl. split; intros Hd.
  - by apply (replayEdits_distinct_values _ _ _ _ loose_eq_sym).
  - apply (replayEdits_distinct_values _ _ _ _ strict_eq_sym);
      auto using strict_eq_loose_eq.
Qed.

(** X9.  The grid of the edits lists the log backwards, the last edit first:
    row [i] is element [i] of the reversed log, and there is no row from the
    length of the log on. *)
Theorem editsRowGetter_reverse state i :
  editsRowGetter state i = reverse (edits state) !! i.
Proof.
  unfold editsRowGetter. set (log := edits state).
  destruct (decide (i < length log)%nat) as [Hi | Hi].
  - rewrite bool_decide_eq_true_2 by lia.
    rewrite reverse_lookup by done. f_equal. lia.
  - rewrite bool_decide_eq_false_2 by lia. symmetry.
    apply lookup_ge_None. rewrite length_reverse. lia.
Qed.

End more.

(** *** Closed instances, on the runtime of decimal integers *)

#[local] Existing Instance decimal_runtime.

(** X2 on a histogram of two cities. *)
Lemma applySingleEdit_toVal_first_witness :
  let hist := [mkRow "city" (VStr "NY") 3; mkRow "city" (VStr "Boston") 1] in
  let e := mkEdit "city" (VStr "NY") (VStr "New York") 0 in
  (column e ≠ "count" ∧ toVal e ≠ VNum NaN) ∧
  findIndex (column e) (toVal e) (applySingleEdit hist e) = Some 0%nat.
Proof.
  intros hist e.
  assert (column e ≠ "count") as Hcol by (vm_compute; discriminate).
  assert (toVal e ≠ VNum NaN) as Hto by (vm_compute; discriminate).
  split; [done |].
  apply (applySingleEdit_toVal_first hist e Hcol Hto).
Defined.

(** X3 on a histogram of three cities. *)
Lemma applySingleEdit_removes_fromVal_witness :
  let hist := [mkRow "city" (VStr "NY") 3; mkRow "city" (VStr "Boston") 1;
               mkRow "city" (VStr "New York") 5] in
  let e := mkEdit "city" (VStr "NY") (VStr "New York") 0 in
  let r := mkRow "city" (VStr "NY") 3 in
  (column e ≠ "count" ∧ first_match (column e) (fromVal e) hist 0 r ∧
   (∀ j t, j ≠ 0%nat → hist !! j = Some t →
      ¬ has_value (column e) (fromVal e) t) ∧
   loose_eq (toVal e) (fromVal e) = false) ∧
  Forall (λ x, ¬ has_value (column e) (fromVal e) x) (applySingleEdit hist e) ∧
  findIndex (column e) (fromVal e) (applySingleEdit hist e) = None.
Proof.
  intros hist e r.
  assert (column e ≠ "count") as Hcol by (vm_compute; discriminate).
  assert (first_match (column e) (fromVal e) hist 0 r) as Hfrom.
  { split_and!; [reflexivity | vm_compute; reflexivity | intros; lia]. }
  assert (∀ j t, j ≠ 0%nat → hist !! j = Some t →
            ¬ has_value (column e) (fromVal e) t) as Hunique.
  { intros [|[|[|j]]] t Hj; [lia | | |]; simpl; intros [= <-];
      vm_compute; discriminate. }
  assert (loose_eq (toVal e) (fromVal e) = false) as Hne
    by (vm_compute; reflexivity).
  split; [done |].
  apply (applySingleEdit_removes_fromVal hist e 0%nat r Hcol Hfrom Hunique Hne).
Defined.

(** X4 on a histogram of two cities and an edit of a third one. *)
Lemma applySingleEdit_absent_count_sum_witness :
  let hist := [mkRow "city" (VStr "NY") 3; mkRow "city" (VStr "Boston") 1] in
  let e := mkEdit "city" (VStr "LA") (VStr "Los Angeles") 0 in
  (numeric_counts hist ∧
   Forall (λ r, ¬ has_value (column e) (fromVal e) r) hist) ∧
  ∃ x rest,
    applySingleEdit hist e = x :: rest ∧
    (get x "count" = VUndef ∨ get x "count" = VNum NaN) ∧
    count_sum (applySingleEdit hist e) = VNum NaN.
Proof.
  intros hist e.
  assert (numeric_counts hist) as Hnum.
  { repeat constructor; eexists; reflexivity. }
  assert (Forall (λ r, ¬ has_value (column e) (fromVal e) r) hist) as Hnone.
  { repeat constructor; vm_compute; discriminate. }
  split; [done |].
  apply (applySingleEdit_absent_count_sum hist e Hnum Hnone).
Defined.

(** X5 on a histogram of two cities, the second one edited to itself. *)
Lemma applySingleEdit_same_value_witness :
  let hist := [mkRow "city" (VStr "Boston") 1; mkRow "city" (VStr "NY") 3] in
  let r := <["count" := VNum (Int 3)]> {["city" := VStr "NY"]} in
  ("city" ≠ "count" ∧ VStr "NY" ≠ VNum NaN ∧ hist !! 1%nat = Some r ∧
   (∀ j t, j ≠ 1%nat → hist !! j = Some t → ¬ has_value "city" (VStr "NY") t)) ∧
  applySingleEdit hist (mkEdit "city" (VStr "NY") (VStr "NY") 0)
  = r :: delete 1%nat hist.
Proof.
  intros hist r.
  assert (∀ j t, j ≠ 1%nat → hist !! j = Some t →
            ¬ has_value "city" (VStr "NY") t) as Hunique.
  { intros [|[|[|j]]] t Hj; [| lia | |]; simpl; intros [= <-];
      vm_compute; discriminate. }
  split; [split_and!; [discriminate | discriminate | reflexivity | done] |].
  apply (applySingleEdit_same_value hist "city" (VStr "NY") (VNum (Int 3))
           1%nat 0); [discriminate | discriminate | reflexivity | done].
Defined.

(** X6 on a log of one edit and one more. *)
Lemma loadHistogram_one_more_edit_witness :
  let e1 := mkEdit "city" (VStr "NY") (VStr "New York") 0 in
  let e2 := mkEdit "city" (VStr "Boston") (VStr "New York") 1 in
  let state := mkState false [] 0 [] [e1] in
  let state' := mkState false [] 0 [] [e1; e2] in
  let histogram :=
    mkHistogram [mkRow "city" (VStr "NY") 3; mkRow "city" (VStr "Boston") 1]
      ["city"; "count"] in
  edits state' = edits state ++ [e2] ∧
  histogramData (loadHistogram "city" state' histogram) =
    if bool_decide (column e2 = "city")
    then applySingleEdit (histogramData (loadHistogram "city" state histogram)) e2
    else histogramData (loadHistogram "city" state histogram).
Proof.
  intros e1 e2 state state' histogram.
  split; [reflexivity |].
  apply (loadHistogram_one_more_edit "city" state state' histogram e2).
  reflexivity.
Defined.

(** X7 on a log with one edit of another column. *)
Lemma loadHistogram_no_edits_witness :
  let state :=
    mkState false [] 0 [] [mkEdit "state" (VStr "NY") (VStr "New York") 0] in
  let histogram :=
    mkHistogram [mkRow "city" (VStr "NY") 3; mkRow "city" (VStr "Boston") 1]
      ["city"; "count"] in
  Forall (λ e, column e ≠ "city") (edits state) ∧
  histogramData (loadHistogram "city" state histogram) = rows histogram ∧
  histogramNumRows (loadHistogram "city" state histogram)
  = length (rows histogram).
Proof.
  intros state histogram.
  assert (Forall (λ e, column e ≠ "city") (edits state)) as Hlog.
  { repeat constructor. vm_compute. discriminate. }
  split; [done |].
  apply (loadHistogram_no_edits "city" state histogram Hlog).
Defined.

(** X8 on a log of two edits, one of them of another column. *)
Lemma loadHistogram_count_sum_witness :
  let state :=
    mkState false [] 0 []
      [mkEdit "city" (VStr "NY") (VStr "Boston") 0;
       mkEdit "state" (VStr "MA") (VStr "Mass.") 1;
       mkEdit "city" (VStr "Boston") (VStr "New York") 2] in
  let histogram :=
    mkHistogram [mkRow "city" (VStr "NY") 3; mkRow "city" (VStr "Boston") 1]
      ["city"; "count"] in
  (numeric_counts (rows histogram) ∧
   edits_found "city" (edits state) (rows histogram)) ∧
  count_sum (histogramData (loadHistogram "city" state histogram))
  = count_sum (rows histogram) ∧
  numeric_counts (histogramData (loadHistogram "city" state histogram)).
Proof.
  intros state histogram.
  assert (numeric_counts (rows histogram)) as Hnum.
  { repeat constructor; eexists; reflexivity. }
  assert (edits_found "city" (edits state) (rows histogram)) as Hfound.
  { simpl. split; [by apply Exists_cons_hd |].
    split; [by apply Exists_cons_hd | done]. }
  split; [done |].
  apply (loadHistogram_count_sum "city" state histogram Hnum Hfound).
Defined.

(** X18 on a log of two edits, one of them of another column. *)
Lemma loadHistogram_preserves_distinct_witness :
  let state :=
    mkState false [] 0 []
      [mkEdit "city" (VStr "NY") (VStr "Boston") 0;
       mkEdit "state" (VStr "MA") (VStr "Mass.") 1] in
  let histogram :=
    mkHistogram [mkRow "city" (VStr "NY") 3; mkRow "city" (VStr "Boston") 1]
      ["city"; "count"] in
  ("city" ≠ "count" ∧ edits_found "city" (edits state) (rows histogram)) ∧
  (distinct_values loose_eq "city" (rows histogram) →
   distinct_values loose_eq "city"
     (histogramData (loadHistogram "city" state histogram))) ∧
  (distinct_values strict_eq "city" (rows histogram) →
   distinct_values strict_eq "city"
     (histogramData (loadHistogram "city" state histogram))).
Proof.
  intros state histogram.
  assert ("city" ≠ "count") as Hcol by discriminate.
  assert (edits_found "city" (edits state) (rows histogram)) as Hfound.
  { simpl. split; [by apply Exists_cons_hd | done]. }
  split; [done |].
  apply (loadHistogram_preserves_distinct "city" state histogram Hcol Hfound).
Defined.

End RefineMore.

(** * The edit row, and the way of an edit from the keyboard to the next
      load *)

Module EditRowSpec.
Import Refine.

Lemma text_json_nonempty : JSON_nonempty (json := EditJSON.text_json).
Proof. by intros [|e log]. Qed.

Lemma typed_rows props typed :
  let row := foldl EditRow.handleValueChange (EditRow.constructor props) typed in
  EditRow.initValue row = dataValue props ∧
  EditRow.state_dataCount row = dataCount props ∧
  EditRow.state_dataValue row = default (dataValue props) (VStr <$> last typed).
Proof.
  induction typed as [|value typed IH] using rev_ind; simpl; [done |].
  rewrite foldl_snoc, last_snoc. simpl. by destruct IH as (-> & -> & _).
Qed.

(** X10.  An edit row remembers the value it was created with.  After any
    texts typed into it, its initial value and its count are those of its
    props, and a key press calls [onValueChange] for the key Enter only,
    with the initial value as [fromVal] and the last text typed as [toVal]
    (the initial value when nothing was typed). *)
Theorem EditRow_key_press props typed key :
  let row := foldl EditRow.handleValueChange (EditRow.constructor props) typed in
  EditRow.initValue row = dataValue props ∧
  EditRow.state_dataCount row = dataCount props ∧
  EditRow.handleKeyPress row key =
    if bool_decide (key = "Enter")
    then Some {| change_fromVal := dataValue props;
                 change_toVal :=
                   default (dataValue props) (VStr <$> last typed) |}
    else None.
Proof.
  intros row. destruct (typed_rows props typed) as (Hinit & Hcount & Hvalue).
  fold row in Hinit, Hcount, Hvalue. split_and!; [done.. |].
  unfold EditRow.handleKeyPress. by rewrite Hinit, Hvalue.
Qed.

Section reload.
Context {runtime : Runtime} {json : JSON}.

Lemma parse_saved_text log text :
  JSON_roundtrip → JSON_nonempty → Forall json_edit log →
  text = JSON_stringify log →
  JSON_parse (if bool_decide (0 < String.length text)%nat then text else "[]")
  = Some log.
Proof.
  intros Hjson Hnonempty Hlog ->.
  rewrite bool_decide_eq_true_2; [by apply Hjson |].
  specialize (Hnonempty log). destruct (JSON_stringify log); simpl; [done | lia].
Qed.

(** X11.  A saved log is read back.  Let parsing give back what was written
    and let no text of a log be empty.  With the text of a log as
    [existingEdits], the constructor starts from that log and no histogram;
    [componentWillReceiveProps] does the same and asks for the histogram of
    the next column when the revision has changed, and leaves the state
    alone, asking for nothing, when it has not. *)
Theorem saved_log_read_back props state nextProps log :
  JSON_roundtrip → JSON_nonempty → Forall json_edit log →
  existingEdits nextProps = JSON_stringify log →
  constructor nextProps = Some (mkState false [] 0 [] log) ∧
  componentWillReceiveProps props state nextProps =
    if bool_decide (revision nextProps = revision props)
    then Some (state, None)
    else Some (mkState false [] 0 [] log, Some (selectedColumn nextProps)).
Proof.
  intros Hjson Hnonempty Hlog Htext.
  pose proof (parse_saved_text log _ Hjson Hnonempty Hlog Htext) as Hparse.
  unfold constructor, componentWillReceiveProps. rewrite Hparse. simpl.
  split; [done |].
  destruct (decide (revision nextProps = revision props)) as [Hrev | Hrev].
  - rewrite (bool_decide_eq_true_2 (_ = _)) by done.
    by rewrite bool_decide_eq_false_2 by (intros Hn; by apply Hn).
  - rewrite (bool_decide_eq_false_2 (_ = _)) by done.
    by rewrite bool_decide_eq_true_2.
Qed.

(** X12.  From the keyboard to the next load.  Let the component show the
    histogram it loaded for a log, let texts be typed into its edit row [k]
    and Enter pressed.  Then [saveEdits] is called with the text of the log
    followed by the edit [e] of the selected column, from the value of row [k]
    to the last text typed.  A component constructed with that text, for the
    same column, has the log followed by [e], and what it stores for the same
    fetched histogram is the histogram shown before with [e] applied. *)
Theorem enter_saves_and_reloads props state histogram k p typed now :
  JSON_roundtrip → JSON_nonempty → Forall json_edit (edits state) →
  let loaded := loadHistogram (selectedColumn props) state histogram in
  (∃ rowProps,
     renderHistogramNew props loaded = Some rowProps ∧ rowProps !! k = Some p) →
  json_val (dataValue p) →
  let row := foldl EditRow.handleValueChange (EditRow.constructor p) typed in
  let e :=
    mkEdit (selectedColumn props) (dataValue p)
      (default (dataValue p) (VStr <$> last typed)) now in
  ∃ item change text,
    histogramData loaded !! k = Some item ∧
    dataValue p = get item (selectedColumn props) ∧
    EditRow.handleKeyPress row "Enter" = Some change ∧
    handleValueChange (selectedColumn props) loaded now change = Some text ∧
    JSON_parse text = Some (edits state ++ [e]) ∧
    ∀ nextProps,
      existingEdits nextProps = text →
      selectedColumn nextProps = selectedColumn props →
      ∃ state',
        constructor nextProps = Some state' ∧
        edits state' = edits state ++ [e] ∧
        histogramData (loadHistogram (selectedColumn nextProps) state' histogram)
        = applySingleEdit (histogramData loaded) e.
Proof.
  intros Hjson Hnonempty Hlog loaded (rowProps & Hrender & Hk) Hp row e.
  destruct (typed_rows p typed) as (Hinit & _ & Hvalue).
  fold row in Hinit, Hvalue.
  assert (∃ item, histogramData loaded !! k = Some item ∧
                  dataValue p = get item (selectedColumn props))
    as (item & Hitem & Hval).
  { unfold renderHistogramNew in Hrender.
    change (histogramLoaded loaded) with true in Hrender.
    injection Hrender as <-.
    apply list_lookup_fmap_Some in Hk as (item & -> & Hitem). by exists item. }
  assert (EditRow.handleKeyPress row "Enter"
          = Some {| change_fromVal := dataValue p;
                    change_toVal :=
                      default (dataValue p) (VStr <$> last typed) |}) as Hkey.
  { unfold EditRow.handleKeyPress. by rewrite Hinit, Hvalue. }
  assert (Forall json_edit (edits state ++ [e])) as Hlog'.
  { apply Forall_app. split; [done |]. repeat constructor; [done |].
    unfold e. simpl. destruct (last typed); simpl; [discriminate | done]. }
  eexists item, _, (JSON_stringify (edits state ++ [e])).
  split_and!; [done | done | exact Hkey | done | by apply Hjson |].
  intros nextProps Htext Hcol. unfold constructor.
  rewrite (parse_saved_text (edits state ++ [e]) _ Hjson Hnonempty Hlog' Htext).
  eexists. split; [done |]. split; [done |].
  unfold loadHistogram. cbn [histogramData edits].
  rewrite Hcol, RefineMore.replayEdits_app. simpl.
  by rewrite bool_decide_eq_true_2.
Qed.

End reload.

(** *** Closed instances, with the JSON text of [EditJSON] *)

(** X11 on the text of a log of one edit. *)
Lemma saved_log_read_back_witness :
  let log := [mkEdit "city" (VStr "NY") (VStr "New York") 1700000000000] in
  let props := mkProps 5 "city" "" 1 in
  let nextProps :=
    mkProps 5 "state" (JSON_stringify (JSON := EditJSON.text_json) log) 2 in
  let state := mkState true [mkRow "city" (VStr "NY") 3] 1 [] [] in
  (JSON_roundtrip (json := EditJSON.text_json) ∧
   JSON_nonempty (json := EditJSON.text_json) ∧
   Forall json_edit log) ∧
  constructor (json := EditJSON.text_json) nextProps
  = Some (mkState false [] 0 [] log) ∧
  componentWillReceiveProps (json := EditJSON.text_json) props state nextProps
  = Some (mkState false [] 0 [] log, Some "state").
Proof.
  intros log props nextProps state.
  assert (Forall json_edit log) as Hlog.
  { repeat constructor; discriminate. }
  split; [split_and!;
            [apply EditJSONSpec.text_json_roundtrip | apply text_json_nonempty
            | done] |].
  apply (saved_log_read_back (json := EditJSON.text_json) props state nextProps
           log EditJSONSpec.text_json_roundtrip text_json_nonempty Hlog eq_refl).
Defined.

(** X12 on a histogram of two cities: the second row is renamed. *)
Lemma enter_saves_and_reloads_witness :
  let props := mkProps 5 "city" "" 1 in
  let state := mkState false [] 0 [] [] in
  let histogram :=
    mkHistogram [mkRow "city" (VStr "NY") 3; mkRow "city" (VStr "Boston") 1]
      ["city"; "count"] in
  let p := mkEditRowProps (VStr "Boston") (VNum (Int 1)) (Some "Boston") in
  let typed := ["B"; "Bo"; "Bos"] in
  let e := mkEdit "city" (VStr "Boston") (VStr "Bos") 1700000000000 in
  let loaded :=
    loadHistogram (runtime := decimal_runtime) "city" state histogram in
  (JSON_roundtrip (json := EditJSON.text_json) ∧
   JSON_nonempty (json := EditJSON.text_json) ∧
   Forall json_edit (edits state) ∧
   (∃ rowProps,
      renderHistogramNew (runtime := decimal_runtime) props loaded
      = Some rowProps ∧
      rowProps !! 1%nat = Some p) ∧
   json_val (dataValue p)) ∧
  ∃ text,
    handleValueChange (json := EditJSON.text_json) "city" loaded 1700000000000
      (mkValueChange (VStr "Boston") (VStr "Bos")) = Some text ∧
    ∀ nextProps,
      existingEdits nextProps = text →
      selectedColumn nextProps = "city" →
      ∃ state',
        constructor (json := EditJSON.text_json) nextProps = Some state' ∧
        edits state' = [e] ∧
        histogramData
          (loadHistogram (runtime := decimal_runtime)
             (selectedColumn nextProps) state' histogram)
        = applySingleEdit (runtime := decimal_runtime) (histogramData loaded) e.
Proof.
  intros props state histogram p typed e loaded.
  assert (∃ rowProps,
            renderHistogramNew (runtime := decimal_runtime) props loaded
            = Some rowProps ∧
            rowProps !! 1%nat = Some p) as Hrender.
  { eexists. split; reflexivity. }
  assert (json_val (dataValue p)) as Hp by discriminate.
  split; [split_and!;
            [apply EditJSONSpec.text_json_roundtrip | apply text_json_nonempty
            | constructor | done | done] |].
  destruct (enter_saves_and_reloads (runtime := decimal_runtime)
              (json := EditJSON.text_json) props state histogram 1%nat p typed
              1700000000000 EditJSONSpec.text_json_roundtrip text_json_nonempty
              (Forall_nil_2 _) Hrender Hp)
    as (item & change & text & _ & _ & Hkey & Hsave & _ & Hload).
  injection Hkey as <-. exists text. split; [exact Hsave |].
  exact Hload.
Defined.

End EditRowSpec.

(** * More about [groupAutofetches] *)

Module QuotaExceededMore.
Import QuotaExceeded QuotaExceededSpec.

(** [groups[k] = f(groups[k])] touches the one property named [k]. *)
Lemma adjust_split {B} k (f : B → B) (groups : list (string * B)) :
  NoDup groups.*1 → k ∈ groups.*1 →
  ∃ l1 x l2,
    groups = l1 ++ (k, x) :: l2 ∧ adjust k f groups = l1 ++ (k, f x) :: l2.
Proof.
  induction groups as [|[k' x] groups IH]; simpl.
  { by intros _ ?%elem_of_nil. }
  intros [Hk' Hdup]%NoDup_cons Hk.
  destruct (decide (k' = k)) as [-> | Hne].
  - exists [], x, groups. split; [done |]. unfold adjust. simpl.
    rewrite bool_decide_eq_true_2 by done. f_equal.
    rewrite <-(list_fmap_id groups) at 2. apply list_fmap_ext.
    intros i [k'' y] Hi. simpl. rewrite bool_decide_eq_false_2; [done |].
    intros ->. apply Hk'. apply list_elem_of_fmap. exists (k, y).
    split; [done |]. by eapply list_elem_of_lookup_2.
  - apply elem_of_cons in Hk as [-> | Hk]; [done |].
    destruct (IH Hdup Hk) as (l1 & y & l2 & -> & Hadj).
    exists ((k', x) :: l1), y, l2. split; [done |].
    unfold adjust in *. simpl. rewrite bool_decide_eq_false_2 by done.
    by rewrite Hadj.
Qed.

Section more.
Context {collation : Collation}.
Implicit Types (g : Group) (a : Autofetch).

(** One step of the loop changes the group of the autofetch, which is the
    last one when it is new. *)
Lemma addAutofetch_split groups a :
  NoDup groups.*1 →
  ∃ l1 g l2,
    addAutofetch groups a
    = l1 ++ (groupId a,
             mkGroup (group_workflow g)
               (Double.add (nFetchesPerDay g) (fetchesPerDay a))
               (autofetches g ++ [a])) :: l2 ∧
    ((groups = l1 ++ (groupId a, g) :: l2) ∨
     ((groupId a ∉ groups.*1) ∧ groups = l1 ∧ l2 = [] ∧
      g = mkGroup (workflow a) Double.zero [])).
Proof.
  intros Hdup. unfold addAutofetch. case_bool_decide as Hin.
  - destruct (adjust_split (groupId a)
                (λ group, mkGroup (group_workflow group)
                   (Double.add (nFetchesPerDay group) (fetchesPerDay a))
                   (autofetches group ++ [a])) groups Hdup Hin)
      as (l1 & g & l2 & Hgroups & ->).
    exists l1, g, l2. split; [done |]. by left.
  - exists groups, (mkGroup (workflow a) Double.zero []), []. split; [| by right].
    unfold adjust. rewrite fmap_app. simpl.
    rewrite bool_decide_eq_true_2 by done. f_equal.
    rewrite <-(list_fmap_id groups) at 2. apply list_fmap_ext.
    intros i [k y] Hi. simpl. rewrite bool_decide_eq_false_2; [done |].
    intros ->. apply Hin. apply list_elem_of_fmap. exists (groupId a, y).
    split; [done |]. by eapply list_elem_of_lookup_2.
Qed.

Lemma foldl_addAutofetch_partition (input : list Autofetch) :
  let groups := foldl addAutofetch [] input in
  concat (autofetches <$> groups.*2) ≡ₚ input ∧
  (∀ k g, (k, g) ∈ groups →
     ∃ a rest, autofetches g = a :: rest ∧ group_workflow g = workflow a).
Proof.
  induction input as [|a input IH] using rev_ind; simpl.
  { split; [done | by intros ?? ?%elem_of_nil]. }
  rewrite foldl_snoc. simpl in IH.
  destruct (foldl_addAutofetch_groups input) as (Hdup & _ & _).
  set (groups := foldl addAutofetch [] input) in *.
  destruct IH as (Hperm & Hfirst).
  destruct (addAutofetch_split groups a Hdup)
    as (l1 & g & l2 & -> & [Hgroups | (Hnew & <- & -> & ->)]).
  - rewrite Hgroups in Hperm, Hfirst.
    rewrite !fmap_app, !fmap_cons, !concat_app, !concat_cons in *.
    simpl in *. split.
    + rewrite <-Hperm. rewrite <-!(assoc_L (++)).
      rewrite (Permutation_app_comm [a]). by rewrite !(assoc_L (++)).
    + intros k g' [Hin | [[= -> ->] | Hin]%elem_of_cons]%elem_of_app.
      * apply (Hfirst k g'). apply elem_of_app. by left.
      * destruct (Hfirst (groupId a) g) as (a0 & rest & Ha0 & Hwf).
        { apply elem_of_app. right. by left. }
        exists a0, (rest ++ [a]). simpl. by rewrite Ha0.
      * apply (Hfirst k g'). apply elem_of_app. right. by right.
  - rewrite !fmap_app, !concat_app. simpl. split.
    + by rewrite Hperm.
    + intros k g' [Hin | [= -> ->]%list_elem_of_singleton]%elem_of_app.
      * by apply (Hfirst k g').
      * by exists a, [].
Qed.

(** X13.  The groups partition the input: every autofetch is in the list of
    exactly one group.  Put one after the other, the lists of the groups are
    the input up to the order. *)
Theorem groupAutofetches_partition (input : list Autofetch) :
  concat (autofetches <$> groupAutofetches input) ≡ₚ input.
Proof.
  rewrite groupAutofetches_Permutation.
  by destruct (foldl_addAutofetch_partition input) as [-> _].
Qed.

(** X15.  The workflow shown for a group is that of the first autofetch of
    the input with its workflow id. *)
Theorem groupAutofetches_workflow (input : list Autofetch) g :
  g ∈ groupAutofetches input →
  ∃ a rest,
    filter (λ a, id (workflow a) = id (group_workflow g)) input = a :: rest ∧
    autofetches g = a :: rest ∧
    group_workflow g = workflow a.
Proof.
  rewrite groupAutofetches_Permutation.
  intros ([k g'] & -> & Hin)%list_elem_of_fmap. simpl.
  destruct (foldl_addAutofetch_groups input) as (_ & Hgroups & _).
  destruct (Hgroups k g' Hin) as (_ & <- & _).
  destruct (foldl_addAutofetch_partition input) as [_ Hfirst].
  destruct (Hfirst k g' Hin) as (a & rest & Ha & Hwf). by exists a, rest.
Qed.

(** X16.  There are as many groups as there are workflow ids in the
    input. *)
Theorem groupAutofetches_length (input : list Autofetch) :
  length (groupAutofetches input)
  = length (remove_dups ((λ a, id (workflow a)) <$> input)).
Proof.
  rewrite <-(length_fmap (λ g, id (group_workflow g))).
  apply Permutation_length.
  destruct (foldl_addAutofetch_groups input) as (Hdup & Hgroups & Hkeys).
  pose proof (groupAutofetches_Permutation input) as Hperm.
  set (groups := foldl addAutofetch [] input) in *.
  assert (pretty <$> ((λ g, id (group_workflow g)) <$> groups.*2) = groups.*1)
    as Hids.
  { rewrite <-!list_fmap_compose. apply list_fmap_ext. intros i [k g] Hi.
    simpl. apply list_elem_of_lookup_2 in Hi.
    by destruct (Hgroups k g Hi) as (-> & _). }
  apply NoDup_Permutation.
  - rewrite Hperm. apply (NoDup_fmap_1 pretty). by rewrite Hids.
  - apply NoDup_remove_dups.
  - intros x. rewrite elem_of_remove_dups, Hperm, !list_elem_of_fmap. split.
    + intros (g & -> & ([k g'] & -> & Hin)%list_elem_of_fmap). simpl.
      destruct (Hgroups k g' Hin) as (_ & Hautos & Hnonempty & _).
      destruct (autofetches g') as [|a rest] eqn:Hg'; [done |].
      assert (a ∈ filter (λ a, id (workflow a) = id (group_workflow g')) input)
        as [Ha ?]%list_elem_of_filter by (rewrite <-Hautos; left).
      by exists a.
    + intros (a & -> & Ha). apply Hkeys in Ha.
      apply list_elem_of_fmap in Ha as ([k g] & Hk & Hin). simpl in Hk.
      exists g. split.
      * destruct (Hgroups k g Hin) as (Hkg & _). rewrite Hkg in Hk.
        unfold groupId in Hk. by apply (inj pretty) in Hk.
      * apply list_elem_of_fmap. by exists (k, g).
Qed.

End more.

(** X15 with names compared by character code: two autofetches of workflow 7
    around one of workflow 3. *)
Lemma groupAutofetches_workflow_witness :
  let autofetch w n s i :=
    mkAutofetch (mkWorkflow w n) (mkTab "Tab 1") (mkWfModule s 0 i) in
  let a1 := autofetch 7%Z "Sales" 71%Z 3600%positive in
  let a2 := autofetch 3%Z "Budget" 31%Z 86400%positive in
  let a3 := autofetch 7%Z "Sales" 72%Z 43200%positive in
  let input := [a1; a2; a3] in
  let g :=
    mkGroup (mkWorkflow 7 "Sales")
      (Double.add (Double.add Double.zero (fetchesPerDay a1)) (fetchesPerDay a3))
      [a1; a3] in
  g ∈ groupAutofetches (collation := code_collation) input ∧
  ∃ a rest,
    filter (λ a, id (workflow a) = id (group_workflow g)) input = a :: rest ∧
    autofetches g = a :: rest ∧
    group_workflow g = workflow a.
Proof.
  intros autofetch a1 a2 a3 input g.
  assert (g ∈ groupAutofetches (collation := code_collation) input) as Hg.
  { vm_compute. left. }
  split; [done |].
  apply (groupAutofetches_workflow (collation := code_collation) input g Hg).
Defined.

End QuotaExceededMore.

(** * [loadHistogram] on the heap: the fetched rows are not written *)

Module RefineHeapMore.
Import Refine RefineHeap RefineHeapSpec.

Section heap.
Context {runtime : Runtime}.
Implicit Types (h : heap) (xs : list positive) (rs : list (gmap string val)).

Lemma replayEdits_run selectedColumn log h a xs rs :
  arrays h !! a = Some xs → rows_at h xs rs →
  ∃ out h' xs',
    replayEdits selectedColumn log a h = Some (out, h') ∧
    objects h ⊆ objects h' ∧ arrays h ⊆ arrays h' ∧
    (out = a ∨ arrays h !! out = None) ∧
    arrays h' !! out = Some xs' ∧
    rows_at h' xs' (Refine.replayEdits selectedColumn log rs).
Proof.
  revert h a xs rs. induction log as [|e log IH]; intros h a xs rs Ha Hrows.
  { exists a, h, xs. split_and!; [done | done | done | by left | done | done]. }
  simpl. case_bool_decide as He; [| by apply (IH h a xs rs)].
  destruct (applySingleEdit_run h a e xs rs Ha Hrows)
    as (a1 & h1 & new & xs1 & Hrun & Hobjs & Harrs & Hfresh & Ha1 & _ & _
        & Hrows1).
  destruct (IH h1 a1 (new :: xs1) _ Ha1 Hrows1)
    as (out & h' & xs' & Hrun' & Hobjs' & Harrs' & Hout & Hout' & Hrows').
  exists out, h', xs'. split_and!.
  - by erewrite run_bind by done.
  - by etrans.
  - by etrans.
  - right. destruct Hout as [-> | Hout]; [done |].
    by eapply lookup_weaken_None.
  - done.
  - done.
Qed.

(** X17.  [loadHistogram] does not write to the histogram it fetched.
    Whatever the log, the loop returns; the array [histogram.rows] and every
    object and array that existed before hold what they held, and the array
    that becomes [histogramData] is another array, also for a log without an
    edit of the selected column.  Its rows are those the replay of
    [Refine.loadHistogram] computes. *)
Theorem loadHistogram_rows_unchanged selectedColumn log h rows rs :
  rows_of h rows = Some rs →
  ∃ out h',
    loadHistogram selectedColumn log rows h = Some (out, h') ∧
    out ≠ rows ∧ arrays h !! out = None ∧
    (∀ a xs, arrays h !! a = Some xs → arrays h' !! a = Some xs) ∧
    (∀ r o, objects h !! r = Some o → objects h' !! r = Some o) ∧
    rows_of h' rows = Some rs ∧
    rows_of h' out = Some (Refine.replayEdits selectedColumn log rs).
Proof.
  intros (xs & Hxs & Hrows)%rows_of_Some. unfold loadHistogram.
  rewrite (run_bind _ _ _ _ _ (slice_run h rows xs Hxs)).
  set (a := fresh (dom (arrays h))).
  assert (arrays h !! a = None) as Ha by apply fresh_array.
  set (h1 := mkHeap (objects h) (<[a := xs]> (arrays h))).
  destruct (replayEdits_run selectedColumn log h1 a xs rs)
    as (out & h' & xs' & Hrun & Hobjs & Harrs & Hout & Hout' & Hrows');
    [apply lookup_insert_eq | done |].
  assert (arrays h ⊆ arrays h') as Harrs0.
  { etrans; [| exact Harrs]. by apply insert_subseteq. }
  assert (arrays h !! out = None) as Hfresh.
  { destruct Hout as [-> | Hout]; [done |].
    eapply lookup_weaken_None; [exact Hout |]. by apply insert_subseteq. }
  exists out, h'. split_and!.
  - done.
  - congruence.
  - done.
  - intros b ys Hb. exact (lookup_weaken _ _ _ _ Hb Harrs0).
  - intros r o Hr. exact (lookup_weaken _ _ _ _ Hr Hobjs).
  - apply rows_of_Some. exists xs. split.
    + exact (lookup_weaken _ _ _ _ Hxs Harrs0).
    + by apply (rows_at_alloc h).
  - apply rows_of_Some. by exists xs'.
Qed.

End heap.

#[local] Existing Instance decimal_runtime.

(** X17 on a heap with one array of two rows and a log of two edits. *)
Lemma loadHistogram_rows_unchanged_witness :
  let rs := [mkRow "city" (VStr "NY") 3; mkRow "city" (VStr "New York") 5] in
  let h :=
    mkHeap (<[1%positive := mkRow "city" (VStr "NY") 3]>
              {[2%positive := mkRow "city" (VStr "New York") 5]})
           {[1%positive := [1%positive; 2%positive]]} in
  let log := [mkEdit "city" (VStr "NY") (VStr "New York") 0;
              mkEdit "state" (VStr "MA") (VStr "Mass.") 1] in
  rows_of h 1%positive = Some rs ∧
  ∃ out h',
    loadHistogram "city" log 1%positive h = Some (out, h') ∧
    out ≠ 1%positive ∧ arrays h !! out = None ∧
    (∀ a xs, arrays h !! a = Some xs → arrays h' !! a = Some xs) ∧
    (∀ r o, objects h !! r = Some o → objects h' !! r = Some o) ∧
    rows_of h' 1%positive = Some rs ∧
    rows_of h' out = Some (Refine.replayEdits "city" log rs).
Proof.
  intros rs h log.
  assert (rows_of h 1%positive = Some rs) as Hrs by reflexivity.
  split; [done |].
  apply (loadHistogram_rows_unchanged "city" log h 1%positive rs Hrs).
Defined.

End RefineHeapMore.
